(** * generate_parser.py: grammar / parser drift detection

    A shallow embedding of [generate_parser.py] and the proofs of the
    properties stated about it.

    Python's [str] is a [list ascii]: a character is a code point below
    256.  The character classes of the patterns ([\s], [\w], [.],
    [[a-z]] ...) and [str.lower] are given on that whole range as CPython
    defines them.  [str.capitalize] is given exactly for every character
    whose upper-case form is again a single code point below 256 (all but
    U+00B5, U+00DF and U+00FF, which the model leaves unchanged; none of them
    can occur in a rule name, which the grammar pattern draws from
    [[a-zA-Z_]]).

    A Python [set] of strings is a [gset str]; the order in which a set is
    iterated is not fixed by the language, so every statement about
    [sorted(list(s))] is made for an arbitrary enumeration of [s]. *)

From Stdlib Require Import Ascii String.
From stdpp Require Import gmap strings list sorting.

Abbreviation str := (list ascii).
Coercion list_ascii_of_string : string >-> list.

(** ** Characters *)

Module Char.

Definition code (c : ascii) : nat := nat_of_ascii c.

Definition between (lo hi : nat) (c : ascii) : bool :=
  (lo <=? code c) && (code c <=? hi).

(** [[A-Z]], [[a-z]], [[0-9]] *)
Definition is_upper : ascii → bool := between 65 90.
Definition is_lower : ascii → bool := between 97 122.
Definition is_digit : ascii → bool := between 48 57.

Definition is_newline (c : ascii) : bool := code c =? 10.
Definition is_underscore (c : ascii) : bool := code c =? 95.

(** what [.] matches without [re.DOTALL] *)
Definition not_newline (c : ascii) : bool := negb (is_newline c).

(** [\s] for a [str] pattern: [str.isspace] *)
Definition is_space (c : ascii) : bool :=
  between 9 13 c || between 28 32 c || (code c =? 133) || (code c =? 160).

(** the cased letters above U+007F: U+00C0..U+00DE without the
    multiplication sign are upper case, U+00DF..U+00FF without the division
    sign are lower case *)
Definition is_upper_high (c : ascii) : bool :=
  between 192 222 c && negb (code c =? 215).
Definition is_lower_high (c : ascii) : bool :=
  between 223 255 c && negb (code c =? 247).

(** [\w] for a [str] pattern: alphanumeric ([str.isalnum]) or underscore *)
Definition is_word (c : ascii) : bool :=
  is_digit c || is_upper c || is_lower c || is_underscore c
  || is_upper_high c || is_lower_high c
  || (code c =? 170) || (code c =? 178) || (code c =? 179) || (code c =? 181)
  || (code c =? 185) || (code c =? 186) || between 188 190 c.

(** one character of [str.lower] *)
Definition lower (c : ascii) : ascii :=
  if is_upper c || is_upper_high c then ascii_of_nat (code c + 32) else c.

(** one character of [str.upper], where the result is one character below
    256 *)
Definition upper (c : ascii) : ascii :=
  if is_lower c || (is_lower_high c && negb (code c =? 223) && negb (code c =? 255))
  then ascii_of_nat (code c - 32) else c.

End Char.

(** ** The fragment of Python's [re] the script uses

    Every repetition in the script's patterns ranges over one character
    class, so [Star] takes a class; [greedy = false] is the lazy [*?].
    Matching is by backtracking in Python's priority order, written in
    continuation-passing style. *)

Inductive regex : Type :=
| Chr (p : ascii → bool)             (* one character of a class *)
| Bol                                (* [^] under [re.MULTILINE] *)
| Cat (r1 r2 : regex)                (* [r1 r2] *)
| Star (greedy : bool) (p : ascii → bool)  (* [p*] and [p*?] *)
| Group (n : nat) (r : regex).       (* the [n]-th capturing group *)

Module Re.

(** captured groups, most recent first *)
Definition caps := list (nat * str).

Fixpoint group (n : nat) (cs : caps) : str :=
  match cs with
  | [] => []
  | (n', s) :: cs' => if n =? n' then s else group n cs'
  end.

(** the state of a match: the character before the current position, the
    text from the current position on, the groups captured so far *)
Definition cont : Type := option ascii → str → caps → option (str * caps).

Definition orelse {A} (a b : option A) : option A :=
  match a with Some _ => a | None => b end.

(** [^] under MULTILINE: at the start of the text and after each newline *)
Definition at_bol (prev : option ascii) : bool :=
  match prev with None => true | Some c => Char.is_newline c end.

Fixpoint star (greedy : bool) (p : ascii → bool) (k : cont)
    (prev : option ascii) (s : str) (cs : caps) : option (str * caps) :=
  match s with
  | c :: s' =>
      if p c then
        if greedy then orelse (star greedy p k (Some c) s' cs) (k prev s cs)
        else orelse (k prev s cs) (star greedy p k (Some c) s' cs)
      else k prev s cs
  | [] => k prev s cs
  end.

Fixpoint m (r : regex) (k : cont)
    (prev : option ascii) (s : str) (cs : caps) : option (str * caps) :=
  match r with
  | Chr p =>
      match s with
      | c :: s' => if p c then k (Some c) s' cs else None
      | [] => None
      end
  | Bol => if at_bol prev then k prev s cs else None
  | Cat r1 r2 => m r1 (m r2 k) prev s cs
  | Star greedy p => star greedy p k prev s cs
  | Group n r =>
      m r (λ prev' s' cs', k prev' s' ((n, take (length s - length s') s) :: cs'))
        prev s cs
  end.

(** the match of [r] that starts at the current position, if there is one:
    the text after the match and the groups *)
Definition match_at (r : regex) (prev : option ascii) (s : str)
    : option (str * caps) :=
  m r (λ _ s' cs, Some (s', cs)) prev s [].

(** The scan shared by [re.sub], [re.finditer] and [re.findall]: the
    leftmost match, then the leftmost match after its end, and so on.  The
    text is cut into the characters no match covers and the matches.
    [skip] counts the characters of the current match still to pass.  (No
    pattern of the script matches the empty string, see [patterns_consume]
    below, so the scan never meets an empty match.) *)
Fixpoint scan (r : regex) (prev : option ascii) (skip : nat) (s : str)
    : list (ascii + caps) :=
  match s with
  | [] => []
  | c :: s' =>
      match skip with
      | S n => scan r (Some c) n s'
      | O =>
          match match_at r prev s with
          | Some (rest, cs) =>
              inr cs :: scan r (Some c) (length s - length rest - 1) s'
          | None => inl c :: scan r (Some c) 0 s'
          end
      end
  end.

(** a replacement template: literal text and group references [\n] *)
Inductive piece : Type :=
| Txt (t : str)
| Ref (n : nat).

Definition expand (repl : list piece) (cs : caps) : str :=
  flat_map (λ p, match p with Txt t => t | Ref n => group n cs end) repl.

(** [re.sub(r, repl, s)] *)
Definition sub (r : regex) (repl : list piece) (s : str) : str :=
  flat_map (λ e, match e with inl c => [c] | inr cs => expand repl cs end)
    (scan r None 0 s).

(** [re.finditer(r, s)], each match as its groups *)
Definition finditer (r : regex) (s : str) : list caps :=
  omap (λ e, match e with inl _ => None | inr cs => Some cs end)
    (scan r None 0 s).

(** [re.findall(r, s)] for a pattern with exactly one group *)
Definition findall (r : regex) (s : str) : list str :=
  group 1 <$> finditer r s.

(** building blocks for writing the patterns *)
Definition lit (c : ascii) : regex := Chr (λ x, bool_decide (x = c)).
Definition dot : regex := Chr Char.not_newline.
Definition plus (p : ascii → bool) : regex := Cat (Chr p) (Star true p).
Fixpoint lits (t : str) (r : regex) : regex :=
  match t with
  | [] => r
  | c :: t' => Cat (lit c) (lits t' r)
  end.
Definition cls (ps : list (ascii → bool)) (c : ascii) : bool :=
  existsb (λ p, p c) ps.

End Re.

(** ** Python string methods the script calls *)

(** [s.lower()] *)
Definition lower (s : str) : str := Char.lower <$> s.

(** [s.capitalize()]: the first character upper-cased, the rest lower-cased *)
Definition capitalize (s : str) : str :=
  match s with
  | [] => []
  | c :: s' => Char.upper c :: lower s'
  end.

(** [s.split(sep)] for a one-character separator: the pieces between the
    separators, empty pieces included *)
Fixpoint split (sep : ascii) (s : str) : list str :=
  match s with
  | [] => [[]]
  | c :: s' =>
      if bool_decide (c = sep) then [] :: split sep s'
      else
        match split sep s' with
        | w :: ws => (c :: w) :: ws
        | [] => [[c]]
        end
  end.

(** [''.join(ws)] *)
Definition join (ws : list str) : str := concat ws.

(** ** The script's patterns *)

Module Pat.
Import Re.

(** the pattern "(.)([A-Z][a-z]+)" *)
Definition cap_word : regex :=
  Cat (Group 1 dot) (Group 2 (Cat (Chr Char.is_upper) (plus Char.is_lower))).

(** the pattern "([a-z0-9])([A-Z])" *)
Definition low_up : regex :=
  Cat (Group 1 (Chr (cls [Char.is_lower; Char.is_digit])))
      (Group 2 (Chr Char.is_upper)).

(** the replacement "\1_\2" *)
Definition underscore_between : list piece := [Ref 1; Txt "_"; Ref 2].

(** the pattern "//.*" *)
Definition line_comment : regex :=
  lits "//" (Star true Char.not_newline).

(** the pattern "/\*.*?\*/" with [re.DOTALL] *)
Definition block_comment : regex :=
  lits "/*" (Cat (Star false (λ _, true)) (lits "*" (lit "/"%char))).

(** the pattern "^\s*(NAME)\s*:" with [re.MULTILINE], where NAME is
    "[a-z][a-zA-Z_]*" *)
Definition rule_pattern : regex :=
  Cat Bol (Cat (Star true Char.is_space)
    (Cat (Group 1 (Cat (Chr Char.is_lower)
                       (Star true (cls [Char.is_lower; Char.is_upper;
                                        Char.is_underscore]))))
      (Cat (Star true Char.is_space) (lit ":"%char)))).

(** the pattern "^\s*([A-Z_]+)\s*:" with [re.MULTILINE] *)
Definition token_pattern : regex :=
  Cat Bol (Cat (Star true Char.is_space)
    (Cat (Group 1 (plus (cls [Char.is_upper; Char.is_underscore])))
      (Cat (Star true Char.is_space) (lit ":"%char)))).

(** the pattern "std::unique_ptr<\w+>\s+([a-z_]+)\(.*\)" *)
Definition declared_pattern : regex :=
  lits "std::unique_ptr<"
    (Cat (plus Char.is_word)
      (Cat (lit ">"%char)
        (Cat (plus Char.is_space)
          (Cat (Group 1 (plus (cls [Char.is_lower; Char.is_underscore])))
            (Cat (lit "("%char)
              (Cat (Star true Char.not_newline) (lit ")"%char))))))).

(** the pattern "Parser::([a-z_]+)\(.*\)" *)
Definition implemented_pattern : regex :=
  lits "Parser::"
    (Cat (Group 1 (plus (cls [Char.is_lower; Char.is_underscore])))
      (Cat (lit "("%char)
        (Cat (Star true Char.not_newline) (lit ")"%char)))).

End Pat.

(** ** The script *)

(** [to_snake_case(name)] *)
Definition to_snake_case (name : str) : str :=
  let s1 := Re.sub Pat.cap_word Pat.underscore_between name in
  lower (Re.sub Pat.low_up Pat.underscore_between s1).

(** the two comment removals at the head of [parse_grammar] *)
Definition remove_line_comments (g : str) : str := Re.sub Pat.line_comment [] g.
Definition remove_block_comments (g : str) : str := Re.sub Pat.block_comment [] g.
Definition remove_comments (g : str) : str :=
  remove_block_comments (remove_line_comments g).

(** the two extractions of [parse_grammar], on the text without comments *)
Definition extract_symbols (grammar_content : str) : gset str * gset str :=
  let rules : gset str :=
    list_to_set (to_snake_case <$> Re.findall Pat.rule_pattern grammar_content) in
  let tokens : gset str :=
    list_to_set (Re.findall Pat.token_pattern grammar_content) in
  (tokens, rules).

(** [parse_grammar(grammar_content)]: the pair [(tokens, rules)] *)
Definition parse_grammar (grammar_content : str) : gset str * gset str :=
  extract_symbols (remove_comments grammar_content).

(** the two extractions of [analyze_cpp_files], on the texts of the files *)
Definition declared_methods_of (header_content : str) : gset str :=
  list_to_set (Re.findall Pat.declared_pattern header_content).
Definition implemented_methods_of (source_content : str) : gset str :=
  list_to_set (Re.findall Pat.implemented_pattern source_content).

(** [analyze_cpp_files(header_path, source_path)]: the pair
    [(declared_methods, implemented_methods)], or the path whose [open]
    raises [FileNotFoundError].  [read p] is the text
    [open(p, "r").read()] gives, [None] where the file is not found. *)
Definition analyze_cpp_files (read : str → option str)
    (header_path source_path : str) : str + gset str * gset str :=
  match read header_path with
  | None => inl header_path
  | Some header_content =>
      match read source_path with
      | None => inl source_path
      | Some source_content =>
          inr (declared_methods_of header_content,
               implemented_methods_of source_content)
      end
  end.

(** [sorted(l)] on strings: Python orders [str] lexicographically by code
    point, a proper prefix first *)
Fixpoint str_leb (a b : str) : bool :=
  match a, b with
  | [], _ => true
  | _ :: _, [] => false
  | x :: a', y :: b' =>
      if Char.code x <? Char.code y then true
      else if Char.code x =? Char.code y then str_leb a' b'
      else false
  end.

(** [a <= b] on Python strings *)
Definition str_le (a b : str) : Prop := str_leb a b = true.

#[global] Instance str_le_dec : RelDecision str_le.
Proof. intros a b. unfold str_le. apply _. Defined.

(** [sorted(l)]: a stable merge sort *)
Definition sorted (l : list str) : list str := merge_sort str_le l.

(** the newline character *)
Definition nl : str := ["010"%char].

(** [print(a1); print(a2); ...] writes each argument followed by a newline *)
Definition stdout_text (printed : list str) : str :=
  flat_map (λ a, a ++ nl) printed.

(** [''.join(word.capitalize() for word in rule.split('_'))] *)
Definition node_type (rule : str) : str :=
  join (capitalize <$> split "_" rule).

(** the message of the [print] before the early [return] *)
Definition in_sync_message : str :=
  "The parser appears to be in sync with the grammar. No missing items found.".

(** the argument of the [print] in the loop over the missing declarations *)
Definition declaration_stub (rule : str) : str :=
  "    std::unique_ptr<" ++ node_type rule ++ "> " ++ rule ++ "();".

(** the arguments of the four [print]s in the loop over the missing
    implementations *)
Definition implementation_stub (rule : str) : list str :=
  [ "std::unique_ptr<" ++ node_type rule ++ "> Parser::" ++ rule ++ "() {";
    "    // TODO: Implement parsing logic for " ++ rule;
    "    return nullptr;" : str;
    "}" ++ nl ].

(** the [print]s under [if missing_declarations:], for
    [list(missing_declarations)] in the order the set iterates *)
Definition declarations_section (listing : list str) : list str :=
  if decide (listing = []) then []
  else ["---Missing Method Declarations (for include/Parser.h)---" : str]
       ++ (declaration_stub <$> sorted listing) ++ [[]].

(** the [print]s under [if missing_implementations:] *)
Definition implementations_section (listing : list str) : list str :=
  if decide (listing = []) then []
  else ["---Missing Method Implementations (for src/Parser.cpp)---" : str]
       ++ (sorted listing ≫= implementation_stub).

(** What [main] prints once the three sets are known.  [listing_decl] and
    [listing_impl] are [list(missing_declarations)] and
    [list(missing_implementations)], in whatever order the sets iterate. *)
Definition report_of_listings (listing_decl listing_impl : list str) : list str :=
  if decide (listing_decl = [] ∧ listing_impl = []) then [in_sync_message]
  else
    [ "---Analysis Complete---" ++ nl;
      "The following are suggestions for what might be missing from your parser." : str;
      "Please review them carefully before adding to your code." ++ nl ]
    ++ declarations_section listing_decl
    ++ implementations_section listing_impl.

(** the set differences of [main] *)
Definition analyze (rules declared implemented : gset str) : gset str * gset str :=
  (rules ∖ declared, rules ∖ implemented).

(** what [main] prints for the three sets, with [elements] for the
    iteration order of a set *)
Definition report (rules declared implemented : gset str) : list str :=
  let '(missing_declarations, missing_implementations) :=
    analyze rules declared implemented in
  report_of_listings (elements missing_declarations)
                     (elements missing_implementations).

(** [os.path.join(a, b)] on POSIX paths *)
Definition path_join (a b : str) : str :=
  match b with
  | "/"%char :: _ => b
  | _ =>
      match last a with
      | None => b
      | Some "/"%char => a ++ b
      | Some _ => a ++ "/" ++ b
      end
  end.

(** How a run of [main] ends: it returns, or the [FileNotFoundError] of an
    [open] that no handler catches escapes.  Any other error of [open] or
    [read] (a directory, a permission, an encoding) leaves [main] as well,
    uncaught; such runs are outside this model, where a file is read or
    not found. *)
Inductive outcome : Type :=
| Returned (printed : list str)
| FileNotFound (path : str).

(** [main()], for the directory of the script ([script_dir]) and the
    files that can be read. *)
Definition main (script_dir : str) (read : str → option str) : outcome :=
  let grammar_path := path_join script_dir "grammar/Zephyr.g4" in
  let header_path := path_join script_dir "include/Parser.h" in
  let source_path := path_join script_dir "src/Parser.cpp" in
  match read grammar_path with
  | None => Returned [ "Error: " ++ grammar_path ++ " not found." ]
  | Some grammar_content =>
      let '(grammar_tokens, grammar_rules) := parse_grammar grammar_content in
      match analyze_cpp_files read header_path source_path with
      | inl path => FileNotFound path
      | inr (declared_methods, implemented_methods) =>
          Returned (report grammar_rules declared_methods implemented_methods)
      end
  end.

(** ** Notions used in the statements and in the proofs *)

(** *** Matching and scanning *)

(** the longest prefix of [s] within the class [p] *)
Fixpoint run (p : ascii → bool) (s : str) : str :=
  match s with
  | c :: s' => if p c then c :: run p s' else []
  | [] => []
  end.

(** the text after the longest prefix of [s] within the class [p] *)
Fixpoint after (p : ascii → bool) (s : str) : str :=
  match s with
  | c :: s' => if p c then after p s' else s
  | [] => []
  end.

(** the character before the current position once [t] has been passed *)
Definition moved (prev : option ascii) (t : str) : option ascii :=
  match last t with Some c => Some c | None => prev end.

(** the least number of characters a match of [r] spans *)
Fixpoint min_len (r : regex) : nat :=
  match r with
  | Chr _ => 1
  | Bol => 0
  | Cat r1 r2 => min_len r1 + min_len r2
  | Star _ _ => 0
  | Group _ r => min_len r
  end.

(** the patterns of the script *)
Definition patterns : list regex :=
  [ Pat.cap_word; Pat.low_up; Pat.line_comment; Pat.block_comment;
    Pat.rule_pattern; Pat.token_pattern; Pat.declared_pattern;
    Pat.implemented_pattern ].

(** whether [r] is free of [^] *)
Fixpoint bol_free (r : regex) : bool :=
  match r with
  | Bol => false
  | Cat r1 r2 => bol_free r1 && bol_free r2
  | Group _ r => bol_free r
  | _ => true
  end.

(** a continuation that does not look at the character before the position *)
Definition blind (k : Re.cont) : Prop := ∀ p1 p2 s cs, k p1 s cs = k p2 s cs.

(** *** The two substitutions of [to_snake_case] *)

(** [[a-z0-9]] *)
Definition low_dig (c : ascii) : bool := Char.is_lower c || Char.is_digit c.

(** the two passes of [to_snake_case] *)
Definition pass1 : str → str := Re.sub Pat.cap_word Pat.underscore_between.
Definition pass2 : str → str := Re.sub Pat.low_up Pat.underscore_between.

(** whether the first pattern matches at the start of [s] *)
Definition cap_hit (s : str) : bool :=
  match s with
  | c :: u :: l :: _ => Char.not_newline c && Char.is_upper u && Char.is_lower l
  | _ => false
  end.

(** whether [s] starts with a lower-case letter *)
Definition starts_lower (s : str) : bool :=
  match s with l :: _ => Char.is_lower l | [] => false end.

(** whether [to_snake_case] puts an underscore before [c], given the
    character [p] before it and the text [s'] after it *)
Definition boundary (p c : ascii) (s' : str) : bool :=
  Char.is_upper c && ((Char.not_newline p && starts_lower s') || low_dig p).

(** [s] with an underscore at each boundary; [prev] is the character before
    [s] *)
Fixpoint with_underscores (prev : option ascii) (s : str) : str :=
  match s with
  | [] => []
  | c :: s' =>
      let rest := c :: with_underscores (Some c) s' in
      match prev with
      | Some p => if boundary p c s' then "_"%char :: rest else rest
      | None => rest
      end
  end.

(** the second substitution, position by position *)
Fixpoint pass2_pos (prev : option ascii) (s : str) : str :=
  match s with
  | [] => []
  | c :: s' =>
      let rest := c :: pass2_pos (Some c) s' in
      match prev with
      | Some p => if low_dig p && Char.is_upper c then "_"%char :: rest else rest
      | None => rest
      end
  end.

(** whether the character before the current position may still take part
    in a match of the first pass without changing where the second pass
    adds its underscore *)
Definition settled (q : option ascii) (s : str) : Prop :=
  match q with
  | None => True
  | Some p => low_dig p = true ∨ cap_hit (p :: s) = false
  end.

(** what the second substitution puts before [c] *)
Definition ins2 (q : option ascii) (c : ascii) : str :=
  match q with
  | Some p => if low_dig p && Char.is_upper c then ["_"%char] else []
  | None => []
  end.

(** what [with_underscores] puts before [c] *)
Definition insW (q : option ascii) (c : ascii) (s' : str) : str :=
  match q with
  | Some p => if boundary p c s' then ["_"%char] else []
  | None => []
  end.

(** no character of [[A-Z]] *)
Definition no_upper (s : str) : Prop := Forall (λ c, Char.is_upper c = false) s.

(** where the description puts an underscore before [c], [p] being the
    character before it and [s'] the text after it: (a) "between a run of
    one-or-more non-uppercase characters and a following capitalized word",
    (b) "between a lowercase-or-digit character and a following uppercase
    character", and, for a run of capitals followed by a capitalized word,
    "before the last capital of the run": the capital that follows a capital
    and starts the capitalized word *)
Definition boundary_as_described (p c : ascii) (s' : str) : bool :=
  Char.is_upper c
  && ((negb (Char.is_upper p) && starts_lower s')
      || low_dig p
      || (Char.is_upper p && starts_lower s')).

(** [s] with an underscore at each boundary of the description *)
Fixpoint with_underscores_as_described (prev : option ascii) (s : str) : str :=
  match s with
  | [] => []
  | c :: s' =>
      let rest := c :: with_underscores_as_described (Some c) s' in
      match prev with
      | Some p => if boundary_as_described p c s' then "_"%char :: rest else rest
      | None => rest
      end
  end.

(** the conversion as the description gives it *)
Definition to_snake_case_as_described (s : str) : str :=
  lower (with_underscores_as_described None s).

(** *** Identifiers and their Pascal form *)

(** [[a-zA-Z0-9]] *)
Definition is_alnum (c : ascii) : bool :=
  Char.is_lower c || Char.is_upper c || Char.is_digit c.

(** no two upper-case letters in a row *)
Fixpoint no_adjacent_upper (s : str) : bool :=
  match s with
  | c :: s' =>
      match s' with
      | d :: _ => negb (Char.is_upper c && Char.is_upper d) && no_adjacent_upper s'
      | [] => true
      end
  | [] => true
  end.

(** an identifier of simple words in camelCase: letters and digits, no
    acronym *)
Definition simple_identifier (x : str) : bool :=
  forallb is_alnum x && no_adjacent_upper x.

(** [x] with its first character upper-cased *)
Definition cap_first (x : str) : str :=
  match x with
  | c :: t => Char.upper c :: t
  | [] => []
  end.

(** what [node_type] makes of [t] when [t] continues a word: the rest of
    the word lower-cased, then the later words capitalized *)
Definition word_tail (t : str) : str :=
  match split "_" t with
  | w :: ws => lower w ++ join (capitalize <$> ws)
  | [] => []
  end.

(** *** Comments *)

(** the text after the first closer [*/] in [s], if there is one *)
Fixpoint after_close (s : str) : option str :=
  match s with
  | [] => None
  | c :: s' =>
      match s' with
      | d :: rest =>
          if bool_decide (c = "*"%char) && bool_decide (d = "/"%char) then Some rest
          else after_close s'
      | [] => None
      end
  end.

(** whether the two characters [a b] occur next to each other in [s] *)
Fixpoint has_pair (a b : ascii) (s : str) : bool :=
  match s with
  | [] => false
  | c :: s' =>
      match s' with
      | d :: _ => (bool_decide (c = a) && bool_decide (d = b)) || has_pair a b s'
      | [] => false
      end
  end.

(** whether [s] starts with the character [a] *)
Definition starts_with (a : ascii) (s : str) : bool :=
  match s with c :: _ => bool_decide (c = a) | [] => false end.

(** whether [s] ends with the character [a] *)
Definition ends_with (a : ascii) (s : str) : bool :=
  match last s with Some c => bool_decide (c = a) | None => false end.

(** A commented text, cut into its parts: code, line comments (with the
    newline that ends them) and closed block comments. *)
Inductive segment : Type :=
| Code (t : str)
| LineComment (c : str)
| BlockComment (c : str).

(** the text of a part *)
Definition render (s : segment) : str :=
  match s with
  | Code t => t
  | LineComment c => "//" ++ c ++ nl
  | BlockComment c => "/*" ++ c ++ "*/"
  end.

(** the same without the comment: a line comment leaves its newline *)
Definition erase (s : segment) : str :=
  match s with
  | Code t => t
  | LineComment _ => nl
  | BlockComment _ => []
  end.

Definition render_all (segs : list segment) : str := segs ≫= render.
Definition erase_all (segs : list segment) : str := segs ≫= erase.

(** Code holds no comment marker and does not end in a slash; a line
    comment holds no newline; a block comment holds no closer and no
    line-comment marker, and no slash follows it directly. *)
Definition segment_ok (s : segment) (next : str) : bool :=
  match s with
  | Code t =>
      negb (has_pair "/" "/" t) && negb (has_pair "/" "*" t) && negb (ends_with "/" t)
  | LineComment c => forallb Char.not_newline c
  | BlockComment c =>
      negb (has_pair "*" "/" c) && negb (has_pair "/" "/" c)
      && negb (starts_with "/" next)
  end.

(** all parts are as above; [rest] is the text after the last part *)
Fixpoint well_commented (segs : list segment) (rest : str) : bool :=
  match segs with
  | [] => true
  | s :: segs' =>
      segment_ok s (render_all segs' ++ rest) && well_commented segs' rest
  end.

(** after the first pass *)
Definition render1 (s : segment) : str :=
  match s with
  | LineComment _ => nl
  | _ => render s
  end.

(** a block comment whose last line holds a line-comment marker *)
Definition leaking_comment : list segment :=
  [ BlockComment (nl ++ "expr: foo;" ++ nl ++ "// x ");
    Code (nl ++ "stat: bar;") ].

(** the text of the comment-immunity example *)
Definition commented_out_rule : list segment :=
  [ LineComment " expr: foo;"; Code "stat: bar;" ].

(** an opener without a closer, a rule and a token after it *)
Definition never_closed : str := "/* never closed" ++ nl ++ "expr: foo;" ++ nl ++ "TOK: 'x';".


(** *** Rule definitions *)

(** [[a-zA-Z_]] *)
Definition name_char (c : ascii) : bool :=
  Char.is_lower c || Char.is_upper c || Char.is_underscore c.

(** the match of the rule pattern at a line start, computed directly: the
    name and the text after the colon *)
Definition rule_at (s : str) : option (str * str) :=
  match after Char.is_space s with
  | c :: t =>
      if Char.is_lower c then
        match after Char.is_space (after name_char t) with
        | ":"%char :: rest => Some (c :: run name_char t, rest)
        | _ => None
        end
      else None
  | [] => None
  end.

(** whether [s] starts with a character of the class [p] *)
Definition starts_in (p : ascii → bool) (s : str) : bool :=
  match s with c :: _ => p c | [] => false end.

(** white space only *)
Definition spaces (w : str) : Prop := Forall (λ x, Char.is_space x = true) w.

(** a lower-case letter, then letters and underscores *)
Definition rule_name (name : str) : Prop :=
  ∃ c t, name = c :: t ∧ Char.is_lower c = true ∧ Forall (λ x, name_char x = true) t.

(** [pre] ends a line: it is empty or ends in a newline *)
Definition line_start (pre : str) : Prop := Re.at_bol (last pre) = true.

(** [name] stands in [text] at the start of a line after white space [w],
    with white space [w'] and a colon after it *)
Definition rule_site (text name : str) : Prop :=
  ∃ pre w w' rest,
    text = pre ++ w ++ name ++ w' ++ ":" ++ rest
    ∧ line_start pre ∧ spaces w ∧ rule_name name ∧ spaces w'.

(** the names the rule pattern finds from a position on *)
Definition names_found (prev : option ascii) (s : str) : list str :=
  Re.group 1 <$> omap (λ e, match e with inl _ => None | inr cs => Some cs end)
                   (Re.scan Pat.rule_pattern prev 0 s).

(** the names at all line starts, whether an earlier match covers them or not *)
Fixpoint names_at_line_starts (prev : option ascii) (s : str) : list str :=
  match s with
  | [] => []
  | c :: s' =>
      (if Re.at_bol prev
       then match rule_at s with Some (name, _) => [name] | None => [] end
       else [])
      ++ names_at_line_starts (Some c) s'
  end.

(** a rule definition as the sentence has it: the name "immediately followed
    by a colon" *)
Definition rule_site_as_described (text name : str) : Prop :=
  ∃ pre w rest,
    text = pre ++ w ++ name ++ ":" ++ rest
    ∧ line_start pre ∧ spaces w ∧ rule_name name.

(** a rule written with its colon on the next line *)
Definition colon_on_next_line : str := "expr" ++ nl ++ "    : term ;".

(** *** The report *)

(** [l] is [list(X)] for some iteration order of the set [X]: the elements
    of [X], each once *)
Definition listing_of (X : gset str) (l : list str) : Prop := l ≡ₚ elements X.

(** the rules of the end-to-end scenario *)
Definition scenario_rules : gset str :=
  {[ "expr_statement" : str ]} ∪ {[ "block" : str ]}.

(** what the scenario prints, one entry per [print] *)
Definition scenario_report : list str :=
  [ "---Analysis Complete---" ++ nl;
    "The following are suggestions for what might be missing from your parser." : str;
    "Please review them carefully before adding to your code." ++ nl;
    "---Missing Method Declarations (for include/Parser.h)---" : str;
    "    std::unique_ptr<Block> block();" : str;
    [];
    "---Missing Method Implementations (for src/Parser.cpp)---" : str;
    "std::unique_ptr<Block> Parser::block() {" : str;
    "    // TODO: Implement parsing logic for block" : str;
    "    return nullptr;" : str;
    "}" ++ nl;
    "std::unique_ptr<ExprStatement> Parser::expr_statement() {" : str;
    "    // TODO: Implement parsing logic for expr_statement" : str;
    "    return nullptr;" : str;
    "}" ++ nl ].

(** three files for the scenario *)
Definition scenario_grammar : str :=
  "exprStatement: expr ';' ;" ++ nl ++ "block: '{' exprStatement* '}' ;" ++ nl.
Definition scenario_header : str :=
  "class Parser {" ++ nl ++
  "    std::unique_ptr<ExprStatement> expr_statement();" ++ nl ++ "};" ++ nl.
Definition scenario_source : str :=
  "#include <Parser.h>" ++ nl.

(** the file system of the scenario *)
Definition scenario_files (path : str) : option str :=
  if bool_decide (path = "/zephyr/grammar/Zephyr.g4") then Some scenario_grammar
  else if bool_decide (path = "/zephyr/include/Parser.h") then Some scenario_header
  else if bool_decide (path = "/zephyr/src/Parser.cpp") then Some scenario_source
  else None.

(** *** Further notions: names, paths and the parts of the report *)

(** the three paths [main] builds *)
Definition grammar_path (script_dir : str) : str :=
  path_join script_dir "grammar/Zephyr.g4".
Definition header_path (script_dir : str) : str :=
  path_join script_dir "include/Parser.h".
Definition source_path (script_dir : str) : str :=
  path_join script_dir "src/Parser.cpp".

(** [s] without its underscores *)
Definition without_underscores (s : str) : str :=
  filter (λ c, c ≠ "_"%char) s.

(** [[a-z0-9_]] *)
Definition snake_char (c : ascii) : bool :=
  Char.is_lower c || Char.is_digit c || Char.is_underscore c.

(** [[a-z_]] *)
Definition lower_or_underscore (c : ascii) : bool :=
  Char.is_lower c || Char.is_underscore c.

(** [[A-Z_]] *)
Definition upper_or_underscore (c : ascii) : bool :=
  Char.is_upper c || Char.is_underscore c.

(** [[a-zA-Z]] *)
Definition is_letter (c : ascii) : bool := Char.is_lower c || Char.is_upper c.

(** a nonempty name within the class [p] *)
Definition name_in (p : ascii → bool) (x : str) : Prop :=
  x ≠ [] ∧ Forall (λ c, p c = true) x.

(** a lower-case letter, then lower-case letters and underscores *)
Definition method_name (r : str) : Prop :=
  ∃ c t, r = c :: t ∧ Char.is_lower c = true
         ∧ Forall (λ x, lower_or_underscore x = true) t.

(** a capital letter, then letters *)
Definition type_name (x : str) : Prop :=
  ∃ C T, x = C :: T ∧ Char.is_upper C = true ∧ Forall (λ c, is_letter c = true) T.

(** the token [name] stands in [text] at the start of a line after white
    space [w], with white space [w'] and a colon after it *)
Definition token_site (text name : str) : Prop :=
  ∃ pre w w' rest,
    text = pre ++ w ++ name ++ w' ++ ":" ++ rest
    ∧ line_start pre ∧ spaces w ∧ name_in upper_or_underscore name ∧ spaces w'.

(** [line] holds no occurrence of [t] *)
Definition free_of (t line : str) : Prop := ∀ u v, line ≠ u ++ t ++ v.

(** ['_'.join(ws)] *)
Fixpoint snake_join (ws : list str) : str :=
  match ws with
  | [] => []
  | w :: ws' =>
      match ws' with
      | [] => w
      | _ :: _ => w ++ "_"%char :: snake_join ws'
      end
  end.

(** a nonempty word of lower-case letters *)
Definition lower_word (w : str) : Prop :=
  w ≠ [] ∧ Forall (λ c, Char.is_lower c = true) w.

(** no two one-letter words next to each other *)
Fixpoint no_adjacent_singletons (ws : list str) : bool :=
  match ws with
  | w :: ws' =>
      match ws' with
      | v :: _ =>
          negb ((length w =? 1) && (length v =? 1)) && no_adjacent_singletons ws'
      | [] => true
      end
  | [] => true
  end.

(** the three [print]s that open a report with something missing *)
Definition report_preamble : list str :=
  [ "---Analysis Complete---" ++ nl;
    "The following are suggestions for what might be missing from your parser." : str;
    "Please review them carefully before adding to your code." ++ nl ].

(** the text the four [print]s of one implementation stub write *)
Definition implementation_block (rule : str) : str :=
  "std::unique_ptr<" ++ node_type rule ++ "> Parser::" ++ rule ++ "() {" ++ nl
  ++ "    // TODO: Implement parsing logic for " ++ rule ++ nl
  ++ "    return nullptr;" ++ nl
  ++ "}" ++ nl ++ nl.

(** the first line of an implementation stub *)
Definition implementation_head (rule : str) : str :=
  "std::unique_ptr<" ++ node_type rule ++ "> Parser::" ++ rule ++ "() {".

(** a parser in sync with its grammar: one rule, declared and defined *)
Definition synced_files (path : str) : option str :=
  if bool_decide (path = "/zephyr/grammar/Zephyr.g4")
  then Some ("block: '{' '}' ;" ++ nl : str)
  else if bool_decide (path = "/zephyr/include/Parser.h")
  then Some ("    std::unique_ptr<Block> block();" ++ nl : str)
  else if bool_decide (path = "/zephyr/src/Parser.cpp")
  then Some ("std::unique_ptr<Block> Parser::block() {" ++ nl : str)
  else None.

(** a directory with the grammar alone *)
Definition grammar_only_files (path : str) : option str :=
  if bool_decide (path = "/zephyr/grammar/Zephyr.g4") then Some scenario_grammar
  else None.

(** an empty directory *)
Definition no_files (path : str) : option str := None.

(** * Proofs *)

(** ** Characters *)

Ltac each_char c := destruct c as [[] [] [] [] [] [] [] []]; vm_compute; try done.

Lemma lower_not_upper c : Char.is_upper (Char.lower c) = false.
Proof. each_char c. Qed.

Lemma lower_lower c : Char.lower (Char.lower c) = Char.lower c.
Proof. each_char c. Qed.

Lemma upper_not_low_dig c : Char.is_upper c = true → low_dig c = false.
Proof. each_char c. Qed.
Lemma lower_not_upper_char c : Char.is_lower c = true → Char.is_upper c = false.
Proof. each_char c. Qed.
Lemma lower_low_dig c : Char.is_lower c = true → low_dig c = true.
Proof. unfold low_dig. by intros ->. Qed.

Lemma alnum_lower_not_sep c : is_alnum c = true → Char.lower c ≠ "_"%char.
Proof. each_char c. Qed.
Lemma alnum_upper_lower c : is_alnum c = true → Char.upper (Char.lower c) = Char.upper c.
Proof. each_char c. Qed.
Lemma upper_upper_lower c : Char.is_upper c = true → Char.upper (Char.lower c) = c.
Proof. each_char c. Qed.
Lemma alnum_not_upper_lower c :
  is_alnum c = true → Char.is_upper c = false → Char.lower c = c.
Proof. each_char c. Qed.
Lemma alnum_not_upper_low_dig c :
  is_alnum c = true → Char.is_upper c = false → low_dig c = true.
Proof. each_char c. Qed.

Lemma space_not_lower c : Char.is_space c = true → Char.is_lower c = false.
Proof. each_char c. Qed.
Lemma space_not_colon c : Char.is_space c = true → c ≠ ":"%char.
Proof. each_char c. Qed.
Lemma name_not_space c : name_char c = true → Char.is_space c = false.
Proof. each_char c. Qed.
Lemma name_not_colon c : name_char c = true → c ≠ ":"%char.
Proof. each_char c. Qed.
Lemma name_not_newline c : name_char c = true → Char.is_newline c = false.
Proof. each_char c. Qed.
Lemma lower_name c : Char.is_lower c = true → name_char c = true.
Proof. unfold name_char. by intros ->. Qed.

Lemma code_inj x y : Char.code x = Char.code y → x = y.
Proof.
  unfold Char.code. intros H.
  by rewrite <- (ascii_nat_embedding x), <- (ascii_nat_embedding y), H.
Qed.

(** ** Runs *)

Lemma run_after p s : run p s ++ after p s = s.
Proof. induction s as [|c s IH]; simpl; [done|]. destruct (p c); simpl; by f_equal. Qed.

Lemma after_length p s : length (after p s) ≤ length s.
Proof. induction s as [|c s IH]; simpl; [done|]. destruct (p c); simpl; lia. Qed.

Lemma take_run p s : take (length s - length (after p s)) s = run p s.
Proof.
  rewrite <- (run_after p s) at 1 3. rewrite length_app.
  replace (_ + _ - _) with (length (run p s)) by lia.
  by rewrite take_app_length.
Qed.

Lemma run_Forall p s : Forall (λ c, p c = true) (run p s).
Proof.
  induction s as [|c s IH]; simpl; [done|]. destruct (p c) eqn:E; [|done].
  by constructor.
Qed.

Lemma run_app p a b :
  Forall (λ x, p x = true) a → starts_in p b = false → run p (a ++ b) = a.
Proof.
  intros Ha Hb. induction Ha as [|x a Hx Ha IH]; simpl.
  - destruct b as [|c b]; simpl in *; [done|]. by rewrite Hb.
  - by rewrite Hx, IH.
Qed.

Lemma after_app p a b :
  Forall (λ x, p x = true) a → starts_in p b = false → after p (a ++ b) = b.
Proof.
  intros Ha Hb. induction Ha as [|x a Hx Ha IH]; simpl.
  - destruct b as [|c b]; simpl in *; [done|]. by rewrite Hb.
  - by rewrite Hx, IH.
Qed.

(** ** The position before a match *)

Lemma moved_nil prev : moved prev [] = prev.
Proof. done. Qed.

Lemma moved_cons prev c t : moved prev (c :: t) = moved (Some c) t.
Proof.
  unfold moved. destruct t as [|d t]; [done|].
  rewrite last_cons_cons. destruct (last (d :: t)) eqn:E; [done|].
  by apply last_None in E.
Qed.

Lemma moved_app prev t u : moved prev (t ++ u) = moved (moved prev t) u.
Proof.
  revert prev. induction t as [|c t IH]; intros prev; simpl; [done|].
  by rewrite !moved_cons, IH.
Qed.

Lemma moved_Forall (P : ascii → Prop) c t :
  P c → Forall P t → ∃ d, moved (Some c) t = Some d ∧ P d.
Proof.
  intros Hc Ht. revert c Hc. induction Ht as [|x t Hx Ht IH]; intros c Hc.
  - by exists c.
  - rewrite moved_cons. by apply IH.
Qed.

(** ** The matcher *)

Lemma orelse_none {A} (a : option A) : Re.orelse a None = a.
Proof. by destruct a. Qed.

Lemma star_ext g p q k prev s cs :
  (∀ c, p c = q c) → Re.star g p k prev s cs = Re.star g q k prev s cs.
Proof.
  intros H. revert prev. induction s as [|c s IH]; intros prev; simpl; [done|].
  by rewrite H, !IH.
Qed.

Lemma star_greedy_commit p k prev s cs :
  (∀ prev' c s', p c = true → k prev' (c :: s') cs = None) →
  Re.star true p k prev s cs = k (moved prev (run p s)) (after p s) cs.
Proof.
  intros Hk. revert prev. induction s as [|c s IH]; intros prev; simpl; [done|].
  destruct (p c) eqn:Hc; [|done].
  by rewrite IH, Hk, orelse_none, moved_cons.
Qed.

Lemma star_greedy_last p k prev s cs :
  is_Some (k (moved prev (run p s)) (after p s) cs) →
  Re.star true p k prev s cs = k (moved prev (run p s)) (after p s) cs.
Proof.
  revert prev. induction s as [|c s IH]; intros prev; simpl; [done|].
  destruct (p c) eqn:Hc; [|done].
  rewrite moved_cons. intros Hs. rewrite IH by done. by destruct Hs as [? ->].
Qed.

Lemma star_consumes g p k prev s cs res :
  Re.star g p k prev s cs = Some res →
  ∃ mt s' prev', s = mt ++ s' ∧ k prev' s' cs = Some res.
Proof.
  revert prev. induction s as [|c s IH]; intros prev; simpl.
  - intros H. by exists [], [], prev.
  - destruct (p c).
    + assert (Re.star g p k (Some c) s cs = Some res ∨ k prev (c :: s) cs = Some res
              → ∃ mt s' prev', c :: s = mt ++ s' ∧ k prev' s' cs = Some res) as Hor.
      { intros [H|H].
        - destruct (IH _ H) as (mt & s' & prev' & -> & Hk).
          by exists (c :: mt), s', prev'.
        - by exists [], (c :: s), prev. }
      intros H. apply Hor. destruct g; simpl in H.
      * destruct (Re.star true p k (Some c) s cs); [by left|by right].
      * destruct (k prev (c :: s) cs); [by right|by left].
    + intros H. by exists [], (c :: s), prev.
Qed.

Lemma m_consumes r k prev s cs res :
  Re.m r k prev s cs = Some res →
  ∃ mt s' prev' cs',
    s = mt ++ s' ∧ min_len r ≤ length mt ∧ k prev' s' cs' = Some res.
Proof.
  revert k prev s cs.
  induction r as [p| |r1 IH1 r2 IH2|g p|n r IH]; intros k prev s cs; simpl.
  - destruct s as [|c s]; [done|]. destruct (p c); [|done].
    intros H. exists [c], s, (Some c), cs. simpl. split; [done|]. split; [lia|done].
  - destruct (Re.at_bol prev); [|done]. intros H.
    exists [], s, prev, cs. simpl. split; [done|]. split; [lia|done].
  - intros H. apply IH1 in H as (mt1 & s1 & prev1 & cs1 & -> & Hl1 & H).
    apply IH2 in H as (mt2 & s2 & prev2 & cs2 & -> & Hl2 & H).
    exists (mt1 ++ mt2), s2, prev2, cs2.
    rewrite app_assoc, length_app. split; [done|]. split; [lia|done].
  - intros H. apply star_consumes in H as (mt & s' & prev' & -> & H).
    exists mt, s', prev', cs. split; [done|]. split; [lia|done].
  - intros H. apply IH in H as (mt & s' & prev' & cs' & -> & Hl & H).
    by eexists mt, s', prev', _.
Qed.

(** a match is a prefix of the text at its position, at least [min_len]
    characters long *)
Lemma match_at_consumes r prev s rest cs :
  Re.match_at r prev s = Some (rest, cs) →
  ∃ mt, s = mt ++ rest ∧ min_len r ≤ length mt.
Proof.
  intros H. apply m_consumes in H as (mt & s' & prev' & cs' & -> & Hl & H).
  injection H as <- <-. by exists mt.
Qed.

(** no pattern of the script matches the empty string *)
Lemma patterns_consume : Forall (λ r, 2 ≤ min_len r) patterns.
Proof. repeat constructor; simpl; lia. Qed.

(** ** The scan *)

Section Scan.

Variable r : regex.

Lemma scan_skip prev n s :
  n ≤ length s →
  Re.scan r prev n s = Re.scan r (moved prev (take n s)) 0 (drop n s).
Proof.
  revert prev n. induction s as [|c s IH]; intros prev [|n] Hn; simpl in *;
    try done; try lia.
  rewrite IH by lia. by rewrite moved_cons.
Qed.

Lemma scan_miss prev c s :
  Re.match_at r prev (c :: s) = None →
  Re.scan r prev 0 (c :: s) = inl c :: Re.scan r (Some c) 0 s.
Proof. simpl. by intros ->. Qed.

Lemma scan_hit prev mt rest cs :
  mt ≠ [] →
  Re.match_at r prev (mt ++ rest) = Some (rest, cs) →
  Re.scan r prev 0 (mt ++ rest) = inr cs :: Re.scan r (moved prev mt) 0 rest.
Proof.
  destruct mt as [|c mt]; [done|]. intros _ Hm.
  change (Re.scan r prev 0 ((c :: mt) ++ rest)) with
    (match Re.match_at r prev ((c :: mt) ++ rest) with
     | Some (rest', cs') =>
         inr cs' :: Re.scan r (Some c) (length ((c :: mt) ++ rest) - length rest' - 1) (mt ++ rest)
     | None => inl c :: Re.scan r (Some c) 0 (mt ++ rest)
     end).
  rewrite Hm. f_equal.
  replace (length ((c :: mt) ++ rest) - length rest - 1) with (length mt)
    by (simpl; rewrite length_app; lia).
  rewrite scan_skip by (rewrite length_app; lia).
  by rewrite take_app_length, drop_app_length, moved_cons.
Qed.

(** For a pattern that cannot match the empty string, the scan goes on
    right after each match. *)
Lemma scan_step prev s rest cs :
  1 ≤ min_len r →
  Re.match_at r prev s = Some (rest, cs) →
  ∃ mt, s = mt ++ rest ∧ mt ≠ []
        ∧ Re.scan r prev 0 s = inr cs :: Re.scan r (moved prev mt) 0 rest.
Proof.
  intros Hr H. destruct (match_at_consumes _ _ _ _ _ H) as (mt & -> & Hl).
  exists mt. split; [done|].
  assert (mt ≠ []) as Hmt by (intros ->; simpl in Hl; lia).
  split; [done|]. by apply scan_hit.
Qed.

End Scan.

(** A pattern without [^] does not depend on the character before the
    position, and neither does its scan. *)

Lemma star_blind g p k : blind k → blind (Re.star g p k).
Proof.
  intros Hk p1 p2 s cs. revert p1 p2.
  induction s as [|c s IH]; intros p1 p2; simpl; [apply Hk|].
  destruct (p c); [|apply Hk].
  rewrite (Hk p1 p2). by destruct g.
Qed.

Lemma m_blind r k : bol_free r = true → blind k → blind (Re.m r k).
Proof.
  revert k. induction r as [p| |r1 IH1 r2 IH2|g p|n r IH]; intros k Hr Hk; simpl in *.
  - intros p1 p2 [|c s] cs; [done|]. destruct (p c); [apply Hk|done].
  - done.
  - apply andb_true_iff in Hr as [H1 H2]. apply IH1; [done|]. by apply IH2.
  - by apply star_blind.
  - intros p1 p2 s cs. apply IH; [done|]. intros q1 q2 s' cs'. apply Hk.
Qed.

Section WithoutBol.

Variable r : regex.
Hypothesis bol_free_r : bol_free r = true.

Lemma match_at_blind p1 p2 s : Re.match_at r p1 s = Re.match_at r p2 s.
Proof. by apply m_blind. Qed.

Lemma scan_blind p1 p2 n s : Re.scan r p1 n s = Re.scan r p2 n s.
Proof.
  revert p1 p2 n. induction s as [|c s IH]; intros p1 p2 [|n]; simpl; try done.
  by rewrite (match_at_blind p1 p2).
Qed.

Lemma sub_miss repl c s :
  Re.match_at r None (c :: s) = None →
  Re.sub r repl (c :: s) = c :: Re.sub r repl s.
Proof.
  intros Hm. unfold Re.sub. rewrite scan_miss by done. simpl.
  by rewrite (scan_blind (Some c) None).
Qed.

Lemma sub_hit repl mt rest cs :
  mt ≠ [] →
  Re.match_at r None (mt ++ rest) = Some (rest, cs) →
  Re.sub r repl (mt ++ rest) = Re.expand repl cs ++ Re.sub r repl rest.
Proof.
  intros Hmt Hm. unfold Re.sub. rewrite (scan_hit _ _ _ _ cs) by done. simpl.
  by rewrite (scan_blind (moved None mt) None).
Qed.

End WithoutBol.

(** ** What each pattern matches *)

Lemma match_cap_word prev s :
  Re.match_at Pat.cap_word prev s =
  match s with
  | c :: u :: l :: t =>
      if Char.not_newline c && Char.is_upper u && Char.is_lower l
      then Some (after Char.is_lower t,
                 [(2, u :: l :: run Char.is_lower t); (1, [c])])
      else None
  | _ => None
  end.
Proof.
  unfold Re.match_at, Pat.cap_word, Re.plus, Re.dot. simpl.
  destruct s as [|c [|u [|l t]]]; simpl; try done.
  - by destruct (Char.not_newline c).
  - destruct (Char.not_newline c); [|done]. by destruct (Char.is_upper u).
  - destruct (Char.not_newline c); [|done]. simpl.
    destruct (Char.is_upper u); [|done]. simpl.
    destruct (Char.is_lower l); [|done]. simpl.
    rewrite star_greedy_last by done.
    pose proof (after_length Char.is_lower t).
    replace (S (S (length t)) - length (after Char.is_lower t))
      with (S (S (length t - length (after Char.is_lower t)))) by lia.
    replace (S (length t) - length t) with 1 by lia.
    simpl. by rewrite take_run.
Qed.

Lemma match_low_up prev s :
  Re.match_at Pat.low_up prev s =
  match s with
  | c :: u :: t =>
      if low_dig c && Char.is_upper u then Some (t, [(2, [u]); (1, [c])]) else None
  | _ => None
  end.
Proof.
  unfold Re.match_at, Pat.low_up. simpl.
  destruct s as [|c [|u t]]; simpl; try done.
  - rewrite orb_false_r. by destruct (_ || _).
  - rewrite orb_false_r. fold (low_dig c). destruct (low_dig c); [|done]. simpl.
    destruct (Char.is_upper u); [|done]. simpl.
    replace (length t - length t) with 0 by lia.
    replace (S (length t) - length t) with 1 by lia. done.
Qed.

Lemma match_line_comment prev s :
  Re.match_at Pat.line_comment prev s =
  match s with
  | "/"%char :: "/"%char :: t => Some (after Char.not_newline t, [])
  | _ => None
  end.
Proof.
  unfold Re.match_at, Pat.line_comment. simpl.
  destruct s as [|c [|d t]]; simpl; try done.
  - case_bool_decide; [by subst|]. 
    destruct c as [[] [] [] [] [] [] [] []]; done.
  - case_bool_decide as Hc; [subst c|destruct c as [[] [] [] [] [] [] [] []]; done].
    case_bool_decide as Hd; [subst d|destruct d as [[] [] [] [] [] [] [] []]; done].
    by rewrite star_greedy_last.
Qed.

Lemma match_block_comment prev s :
  Re.match_at Pat.block_comment prev s =
  match s with
  | "/"%char :: "*"%char :: t => (λ rest, (rest, [])) <$> after_close t
  | _ => None
  end.
Proof.
  unfold Re.match_at, Pat.block_comment. simpl.
  destruct s as [|c [|d t]]; simpl; try done.
  - case_bool_decide; [by subst|]. destruct c as [[] [] [] [] [] [] [] []]; done.
  - case_bool_decide as Hc; [subst c|destruct c as [[] [] [] [] [] [] [] []]; done].
    case_bool_decide as Hd; [subst d|destruct d as [[] [] [] [] [] [] [] []]; done].
    generalize (Some "*"%char). induction t as [|x t IH]; intros prev'; simpl; [done|].
    rewrite IH. destruct t as [|y t]; simpl.
    + by case_bool_decide.
    + case_bool_decide as Hx; simpl; [|done].
      case_bool_decide as Hy; simpl; done.
Qed.

Lemma cls_name c :
  Re.cls [Char.is_lower; Char.is_upper; Char.is_underscore] c = name_char c.
Proof. unfold Re.cls, name_char. simpl. by rewrite orb_false_r, orb_assoc. Qed.

Lemma match_rule_pattern prev s :
  Re.match_at Pat.rule_pattern prev s =
  if Re.at_bol prev
  then (λ '(name, rest), (rest, [(1, name)])) <$> rule_at s
  else None.
Proof.
  unfold Re.match_at, Pat.rule_pattern. simpl.
  destruct (Re.at_bol prev); [|done].
  rewrite star_greedy_commit.
  2:{ intros prev' c s' Hc. simpl. by rewrite (space_not_lower c Hc). }
  unfold rule_at. destruct (after Char.is_space s) as [|c t]; [done|].
  simpl. destruct (Char.is_lower c); [|done].
  rewrite (star_ext _ _ name_char) by apply cls_name.
  rewrite star_greedy_commit.
  2:{ intros prev' x s' Hx. simpl. rewrite (name_not_space x Hx).
      case_bool_decide; [|done]. by apply name_not_colon in Hx. }
  rewrite star_greedy_commit.
  2:{ intros prev' x s' Hx. case_bool_decide; [|done]. by apply space_not_colon in Hx. }
  destruct (after Char.is_space (after name_char t)) as [|d rest]; [done|].
  case_bool_decide as Hd; [subst d|by destruct d as [[] [] [] [] [] [] [] []]].
  simpl. do 4 f_equal.
  pose proof (after_length Char.is_space (after name_char t)) as H1.
  pose proof (after_length name_char t) as H2.
  replace (S (length t) - length (after name_char t))
    with (S (length t - length (after name_char t))) by lia.
  simpl. by rewrite take_run.
Qed.

(** ** [to_snake_case] *)

Lemma pass1_hit c u l t :
  cap_hit (c :: u :: l :: t) = true →
  pass1 (c :: u :: l :: t) =
  c :: "_"%char :: u :: l :: run Char.is_lower t ++ pass1 (after Char.is_lower t).
Proof.
  intros H. unfold pass1.
  rewrite <- (run_after Char.is_lower t) at 1.
  change (c :: u :: l :: run Char.is_lower t ++ after Char.is_lower t)
    with ((c :: u :: l :: run Char.is_lower t) ++ after Char.is_lower t).
  erewrite sub_hit; [| done | done |].
  2:{ rewrite match_cap_word. simpl. rewrite run_after. simpl in H. by rewrite H. }
  simpl. by rewrite app_nil_r.
Qed.

Lemma pass1_miss c s :
  cap_hit (c :: s) = false → pass1 (c :: s) = c :: pass1 s.
Proof.
  intros H. apply sub_miss; [done|]. rewrite match_cap_word.
  destruct s as [|u [|l t]]; try done. simpl in H. by rewrite H.
Qed.

Lemma pass2_hit c u t :
  low_dig c && Char.is_upper u = true →
  pass2 (c :: u :: t) = c :: "_"%char :: u :: pass2 t.
Proof.
  intros H. unfold pass2. change (c :: u :: t) with ([c; u] ++ t).
  erewrite sub_hit; [| done | done |].
  2:{ rewrite match_low_up. simpl. by rewrite H. }
  done.
Qed.

Lemma pass2_miss c s :
  match s with u :: _ => low_dig c && Char.is_upper u | [] => false end = false →
  pass2 (c :: s) = c :: pass2 s.
Proof.
  intros H. apply sub_miss; [done|]. rewrite match_low_up.
  destruct s as [|u t]; [done|]. by rewrite H.
Qed.

Lemma pass2_pos_eq s prev :
  pass2_pos prev s =
  match prev, s with
  | Some p, u :: t =>
      if low_dig p && Char.is_upper u then "_"%char :: u :: pass2 t else pass2 s
  | _, _ => pass2 s
  end.
Proof.
  revert prev. induction s as [|c s IH]; intros prev.
  { by destruct prev. }
  assert (c :: pass2_pos (Some c) s = pass2 (c :: s)) as K.
  { rewrite IH. destruct s as [|u t]; [by rewrite pass2_miss|].
    destruct (low_dig c && Char.is_upper u) eqn:E.
    - by rewrite pass2_hit.
    - by rewrite (pass2_miss c). }
  simpl. destruct prev as [p|]; [|done].
  destruct (low_dig p && Char.is_upper c) eqn:E; [|done].
  apply andb_true_iff in E as [_ Hu]. do 2 f_equal.
  rewrite IH, (upper_not_low_dig c Hu). by destruct s.
Qed.

Lemma pass2_positional s : pass2 s = pass2_pos None s.
Proof. by rewrite pass2_pos_eq. Qed.

Lemma pass2_pos_lower_run q r X :
  Forall (λ c, Char.is_lower c = true) r →
  pass2_pos q (r ++ X) = r ++ pass2_pos (moved q r) X.
Proof.
  intros Hr. revert q. induction Hr as [|c r Hc Hr IH]; intros q; [done|].
  rewrite moved_cons. simpl. rewrite IH.
  destruct q as [p|]; [|done].
  by rewrite (lower_not_upper_char c Hc), andb_false_r.
Qed.

Lemma with_underscores_lower_run q r X :
  Forall (λ c, Char.is_lower c = true) r →
  with_underscores q (r ++ X) = r ++ with_underscores (moved q r) X.
Proof.
  intros Hr. revert q. induction Hr as [|c r Hc Hr IH]; intros q; [done|].
  rewrite moved_cons. simpl. rewrite IH.
  destruct q as [p|]; [|done]. unfold boundary.
  by rewrite (lower_not_upper_char c Hc).
Qed.

Lemma boundary_settled p c s' :
  settled (Some p) (c :: s') →
  boundary p c s' = low_dig p && Char.is_upper c.
Proof.
  unfold settled, boundary, cap_hit, starts_lower. intros [H|H].
  - rewrite H. by rewrite orb_true_r, andb_true_r.
  - destruct s' as [|l t].
    + simpl. by rewrite andb_false_r, andb_comm.
    + destruct (Char.not_newline p), (Char.is_upper c), (Char.is_lower l), (low_dig p);
        simpl in *; congruence.
Qed.

Lemma pass2_pos_cons q c s :
  pass2_pos q (c :: s) = ins2 q c ++ c :: pass2_pos (Some c) s.
Proof. destruct q as [p|]; simpl; [|done]. by destruct (_ && _). Qed.

Lemma with_underscores_cons q c s :
  with_underscores q (c :: s) = insW q c s ++ c :: with_underscores (Some c) s.
Proof. destruct q as [p|]; simpl; [|done]. by destruct (boundary _ _ _). Qed.

Lemma insW_settled q c s' : settled q (c :: s') → insW q c s' = ins2 q c.
Proof.
  destruct q as [p|]; [|done]. intros H. simpl. by rewrite boundary_settled.
Qed.

Lemma two_passes s q :
  settled q s → pass2_pos q (pass1 s) = with_underscores q s.
Proof.
  remember (length s) as n eqn:Hn. revert s q Hn.
  induction n as [n IH] using lt_wf_ind. intros s q Hn Hq.
  destruct s as [|c s']; [done|].
  rewrite with_underscores_cons, insW_settled by done.
  destruct (cap_hit (c :: s')) eqn:Hhit.
  - destruct s' as [|u [|l t]]; try done.
    rewrite pass1_hit by done. simpl in Hhit.
    apply andb_true_iff in Hhit as [Hhit Hl].
    apply andb_true_iff in Hhit as [Hc Hu].
    assert (∃ d, moved (Some l) (run Char.is_lower t) = Some d ∧ Char.is_lower d = true)
      as (d & Hd & Hdl).
    { apply (moved_Forall (λ c, Char.is_lower c = true)); [done|apply run_Forall]. }
    rewrite !pass2_pos_cons, !with_underscores_cons.
    rewrite pass2_pos_lower_run by apply run_Forall.
    assert (with_underscores (Some l) t
            = run Char.is_lower t ++ with_underscores (Some d) (after Char.is_lower t))
      as ->.
    { rewrite <- (run_after Char.is_lower t) at 1.
      rewrite with_underscores_lower_run by apply run_Forall. by rewrite Hd. }
    rewrite Hd.
    replace (ins2 (Some c) "_"%char) with (@nil ascii)
      by (simpl; by rewrite andb_false_r).
    replace (ins2 (Some "_"%char) u) with (@nil ascii) by done.
    replace (ins2 (Some u) l) with (@nil ascii)
      by (simpl; by rewrite (upper_not_low_dig u Hu)).
    replace (insW (Some c) u (l :: t)) with ["_"%char]
      by (simpl; unfold boundary; simpl; by rewrite Hu, Hc, Hl).
    replace (insW (Some u) l t) with (@nil ascii)
      by (simpl; unfold boundary; by rewrite (lower_not_upper_char l Hl)).
    simpl. do 6 f_equal. eapply IH; [|done|].
    + subst n. simpl. pose proof (after_length Char.is_lower t). lia.
    + left. by apply lower_low_dig.
  - rewrite pass1_miss by done. rewrite pass2_pos_cons. do 2 f_equal.
    eapply IH; [|done|].
    + subst n. simpl. lia.
    + by right.
Qed.

Lemma snake_positional s :
  to_snake_case s = lower (with_underscores None s).
Proof.
  unfold to_snake_case. fold pass1 pass2. simpl.
  by rewrite pass2_positional, two_passes.
Qed.

Lemma boundary_as_described_eq p c s' :
  Char.not_newline p = true → boundary_as_described p c s' = boundary p c s'.
Proof.
  intros Hp. unfold boundary_as_described, boundary. rewrite Hp.
  by destruct (Char.is_upper c), (Char.is_upper p), (starts_lower s'), (low_dig p).
Qed.

Lemma with_underscores_as_described_eq q s :
  match q with Some p => Char.not_newline p = true | None => True end →
  Forall (λ c, Char.not_newline c = true) s →
  with_underscores_as_described q s = with_underscores q s.
Proof.
  intros Hq Hs. revert q Hq. induction Hs as [|c s Hc Hs IH]; intros q Hq; [done|].
  simpl. rewrite (IH (Some c) Hc).
  destruct q as [p|]; [|done]. by rewrite boundary_as_described_eq.
Qed.

(** Claim C4.  On an identifier, and on any text without a newline,
    [to_snake_case] is the conversion the description gives: an underscore
    (a) between a character that is not upper-case and a following
    capitalized word, (b) between a lower-case letter or digit and a
    following upper-case letter, and, in a run of capitals followed by a
    capitalized word, before the last capital of the run; then the whole
    string is lower-cased.  So [HTTPServer] gives [http_server].  The first
    part states where the code puts the underscores on every input. *)
Theorem to_snake_case_boundaries (s : str) :
  to_snake_case s = lower (with_underscores None s)
  ∧ (Forall (λ c, Char.not_newline c = true) s →
     to_snake_case s = to_snake_case_as_described s)
  ∧ to_snake_case "HTTPServer" = "http_server".
Proof.
  split; [apply snake_positional|]. split; [|by vm_compute].
  intros Hs. rewrite snake_positional. unfold to_snake_case_as_described.
  by rewrite with_underscores_as_described_eq.
Qed.

(** C4 at [HTTPServer] and at a camelCase name with a digit. *)
Lemma to_snake_case_boundaries_witness :
  to_snake_case_as_described "HTTPServer" = "http_server"
  ∧ to_snake_case "HTTPServer" = to_snake_case_as_described "HTTPServer"
  ∧ to_snake_case "parseExpr2Statement" = to_snake_case_as_described "parseExpr2Statement".
Proof.
  split; [by vm_compute|]. split.
  - apply (proj1 (proj2 (to_snake_case_boundaries "HTTPServer"))).
    by repeat constructor.
  - apply (proj1 (proj2 (to_snake_case_boundaries "parseExpr2Statement"))).
    by repeat constructor.
Defined.

Lemma with_underscores_no_upper q s : no_upper s → with_underscores q s = s.
Proof.
  intros H. revert q. induction H as [|c s Hc Hs IH]; intros q; [done|].
  rewrite with_underscores_cons, IH. destruct q as [p|]; [|done].
  simpl. unfold boundary. by rewrite Hc.
Qed.

Lemma lower_no_upper s : no_upper (lower s).
Proof. induction s as [|c s IH]; constructor; [apply lower_not_upper|done]. Qed.

Lemma lower_idemp s : lower (lower s) = lower s.
Proof. induction s as [|c s IH]; simpl; [done|]. by rewrite lower_lower, IH. Qed.

Lemma to_snake_case_no_upper s : no_upper (to_snake_case s).
Proof. apply lower_no_upper. Qed.

Lemma to_snake_case_fixed s : no_upper s → to_snake_case s = lower s.
Proof. intros H. by rewrite snake_positional, with_underscores_no_upper. Qed.

(** Claim C10.  [to_snake_case] is idempotent: its result holds no upper-case
    letter, and without one neither substitution applies. *)
Theorem to_snake_case_idempotent s :
  to_snake_case (to_snake_case s) = to_snake_case s
  ∧ no_upper (to_snake_case s).
Proof.
  split; [|apply to_snake_case_no_upper].
  rewrite (to_snake_case_fixed (to_snake_case s)) by apply to_snake_case_no_upper.
  unfold to_snake_case at 1. apply lower_idemp.
Qed.

(** ** The Pascal form of a snake_case name *)

Lemma split_cons_other c t :
  c ≠ "_"%char →
  ∃ w ws, split "_" t = w :: ws ∧ split "_" (c :: t) = (c :: w) :: ws.
Proof.
  intros Hc. simpl. rewrite bool_decide_false by done.
  destruct t as [|d t]; simpl; [by eexists _, _|].
  case_bool_decide; [by eexists _, _|].
  destruct (split "_" t); by eexists _, _.
Qed.

Lemma node_type_cons c t :
  c ≠ "_"%char → node_type (c :: t) = Char.upper c :: word_tail t.
Proof.
  intros Hc. destruct (split_cons_other c t Hc) as (w & ws & H1 & H2).
  unfold node_type, word_tail. by rewrite H1, H2.
Qed.

Lemma word_tail_cons c t :
  c ≠ "_"%char → word_tail (c :: t) = Char.lower c :: word_tail t.
Proof.
  intros Hc. destruct (split_cons_other c t Hc) as (w & ws & H1 & H2).
  unfold word_tail. by rewrite H1, H2.
Qed.

Lemma word_tail_sep t : word_tail ("_"%char :: t) = node_type t.
Proof. done. Qed.

Lemma word_tail_snake s p :
  is_alnum p = true → forallb is_alnum s = true →
  no_adjacent_upper (p :: s) = true →
  word_tail (lower (with_underscores (Some p) s)) = s.
Proof.
  revert p. induction s as [|c s IH]; intros p Hp Hs Hadj; [done|].
  simpl in Hs. apply andb_true_iff in Hs as [Hc Hs].
  change (no_adjacent_upper (p :: c :: s)) with
    (negb (Char.is_upper p && Char.is_upper c) && no_adjacent_upper (c :: s)) in Hadj.
  apply andb_true_iff in Hadj as [Hpc Hadj].
  specialize (IH c Hc Hs Hadj).
  rewrite with_underscores_cons. simpl insW. unfold boundary.
  destruct (Char.is_upper c) eqn:Hu.
  - rewrite andb_true_r in Hpc. apply negb_true_iff in Hpc.
    rewrite (alnum_not_upper_low_dig p Hp Hpc), orb_true_r. simpl.
    change (Char.lower "_"%char) with "_"%char.
    rewrite word_tail_sep, node_type_cons by by apply alnum_lower_not_sep.
    by rewrite upper_upper_lower, IH.
  - simpl. rewrite word_tail_cons by by apply alnum_lower_not_sep.
    rewrite !(alnum_not_upper_lower c) by done. by rewrite IH.
Qed.

Lemma node_type_no_sep x :
  Forall (λ c, c ≠ "_"%char) x → node_type x = capitalize x.
Proof.
  intros H. unfold node_type.
  assert (split "_" x = [x]) as ->.
  { induction H as [|c x Hc Hx IH]; [done|].
    simpl. rewrite bool_decide_false by done. by rewrite IH. }
  simpl. apply app_nil_r.
Qed.

(** Claim C5, as stated, fails at its own example: [capitalize] lower-cases
    the rest of a segment, so [parseExpr] without underscores becomes
    [Parseexpr], not [ParseExpr]. *)
Lemma pascal_round_trip_counterexample :
  node_type (to_snake_case "parseExpr") = "ParseExpr"
  ∧ node_type "parseExpr" = "Parseexpr"
  ∧ node_type (to_snake_case "parseExpr") ≠ node_type "parseExpr".
Proof. split; [|split]; vm_compute; congruence. Qed.

(** Claim C5, amended.  For an identifier of letters and digits with no two
    upper-case letters in a row, the Pascal form of its snake_case form is
    the identifier with its first character upper-cased, while the Pascal
    form of the identifier itself is [capitalize]: first character
    upper-cased, the rest lower-cased. *)
Theorem pascal_of_snake x :
  simple_identifier x = true →
  node_type (to_snake_case x) = cap_first x
  ∧ node_type x = capitalize x.
Proof.
  unfold simple_identifier. intros [Hal Hadj]%andb_true_iff. split.
  - rewrite snake_positional. destruct x as [|c s]; [done|].
    simpl in Hal. apply andb_true_iff in Hal as [Hc Hs].
    rewrite with_underscores_cons. simpl.
    rewrite node_type_cons by by apply alnum_lower_not_sep.
    by rewrite word_tail_snake, alnum_upper_lower.
  - apply node_type_no_sep. apply Forall_forall. intros c Hc ->.
    rewrite forallb_forall in Hal. specialize (Hal "_"%char).
    assert (is_alnum "_"%char = true) as Habs; [|done].
    apply Hal. by apply list_elem_of_In.
Qed.

(** C5 at [parseExpr]: snake [parse_expr], Pascal [ParseExpr]. *)
Lemma pascal_of_snake_witness :
  simple_identifier "parseExpr" = true
  ∧ to_snake_case "parseExpr" = "parse_expr"
  ∧ node_type (to_snake_case "parseExpr") = "ParseExpr".
Proof.
  split; [reflexivity|]. split; [by vm_compute|].
  apply (pascal_of_snake "parseExpr"). reflexivity.
Defined.

(** ** Comment removal *)

Lemma remove_line_comments_hit t :
  remove_line_comments ("/"%char :: "/"%char :: t) =
  remove_line_comments (after Char.not_newline t).
Proof.
  unfold remove_line_comments.
  rewrite <- (run_after Char.not_newline t) at 1.
  change ("/"%char :: "/"%char :: run Char.not_newline t ++ after Char.not_newline t)
    with (("/"%char :: "/"%char :: run Char.not_newline t) ++ after Char.not_newline t).
  erewrite sub_hit; [done|done|done|].
  rewrite match_line_comment. simpl. by rewrite run_after.
Qed.

Lemma remove_line_comments_miss c s :
  bool_decide (c = "/"%char) && starts_with "/" s = false →
  remove_line_comments (c :: s) = c :: remove_line_comments s.
Proof.
  intros H. apply sub_miss; [done|]. rewrite match_line_comment.
  destruct s as [|d t].
  - by destruct c as [[] [] [] [] [] [] [] []].
  - simpl in H. case_bool_decide as Hc; [subst c|by destruct c as [[] [] [] [] [] [] [] []]].
    case_bool_decide as Hd; [done|]. by destruct d as [[] [] [] [] [] [] [] []].
Qed.

Lemma remove_block_comments_hit t rest :
  after_close t = Some rest →
  remove_block_comments ("/"%char :: "*"%char :: t) = remove_block_comments rest.
Proof.
  intros H. unfold remove_block_comments.
  assert (∃ mt, t = mt ++ rest) as [mt ->].
  { clear -H. revert rest H. induction t as [|c t IH]; intros rest H; [done|].
    simpl in H. destruct t as [|d t]; [done|].
    destruct (bool_decide (c = "*"%char) && bool_decide (d = "/"%char)).
    - injection H as <-. by exists [c; d].
    - destruct (IH _ H) as [mt Hmt]. exists (c :: mt). by rewrite Hmt. }
  change ("/"%char :: "*"%char :: mt ++ rest) with (("/"%char :: "*"%char :: mt) ++ rest).
  erewrite sub_hit; [done|done|done|].
  rewrite match_block_comment. simpl. by rewrite H.
Qed.

Lemma remove_block_comments_miss c s :
  match c :: s with
  | "/"%char :: "*"%char :: t => bool_decide (after_close t = None)
  | _ => true
  end = true →
  remove_block_comments (c :: s) = c :: remove_block_comments s.
Proof.
  intros H. apply sub_miss; [done|]. rewrite match_block_comment.
  destruct c as [[] [] [] [] [] [] [] []]; try done.
  destruct s as [|d t]; [done|].
  destruct d as [[] [] [] [] [] [] [] []]; try done.
  apply bool_decide_eq_true in H. by rewrite H.
Qed.

Lemma has_pair_cons a b c s :
  has_pair a b (c :: s) = (bool_decide (c = a) && starts_with b s) || has_pair a b s.
Proof. destruct s as [|d s]; simpl; [by rewrite andb_false_r|done]. Qed.

Lemma has_pair_middle a b pre rest : has_pair a b (pre ++ a :: b :: rest) = true.
Proof.
  induction pre as [|c pre IH].
  - simpl. rewrite (bool_decide_eq_true_2 (a = a) eq_refl), (bool_decide_eq_true_2 (b = b) eq_refl). done.
  - change ((c :: pre) ++ a :: b :: rest) with (c :: (pre ++ a :: b :: rest)).
    rewrite has_pair_cons, IH. apply orb_true_r.
Qed.


Lemma ends_with_cons a c s : s ≠ [] → ends_with a (c :: s) = ends_with a s.
Proof. unfold ends_with. destruct s as [|d s]; [done|]. by rewrite last_cons_cons. Qed.

Lemma starts_with_app a s X :
  starts_with a (s ++ X) = match s with [] => starts_with a X | c :: _ => bool_decide (c = a) end.
Proof. by destruct s. Qed.

Lemma keep_line t X :
  has_pair "/" "/" t = false →
  ends_with "/" t && starts_with "/" X = false →
  remove_line_comments (t ++ X) = t ++ remove_line_comments X.
Proof.
  induction t as [|c t IH]; intros Hp He; [done|].
  rewrite has_pair_cons in Hp. apply orb_false_iff in Hp as [Hc Hp].
  simpl. rewrite remove_line_comments_miss.
  - f_equal. apply IH; [done|]. destruct t as [|d t]; [done|].
    by rewrite ends_with_cons in He.
  - rewrite starts_with_app. destruct t as [|d t]; [|done].
    unfold ends_with in He. simpl in He. done.
Qed.

Lemma keep_block t Y :
  has_pair "/" "*" t = false →
  ends_with "/" t && starts_with "*" Y = false →
  remove_block_comments (t ++ Y) = t ++ remove_block_comments Y.
Proof.
  induction t as [|c t IH]; intros Hp He; [done|].
  rewrite has_pair_cons in Hp. apply orb_false_iff in Hp as [Hc Hp].
  simpl. rewrite remove_block_comments_miss.
  - f_equal. apply IH; [done|]. destruct t as [|d t]; [done|].
    by rewrite ends_with_cons in He.
  - assert (bool_decide (c = "/"%char) && starts_with "*" (t ++ Y) = false) as Hm.
    { rewrite starts_with_app. destruct t as [|d t]; [|done].
      unfold ends_with in He. simpl in He. done. }
    destruct c as [[] [] [] [] [] [] [] []]; try done.
    destruct (t ++ Y) as [|d r]; [done|].
    destruct d as [[] [] [] [] [] [] [] []]; done.
Qed.

Lemma after_not_newline c X :
  forallb Char.not_newline c = true →
  after Char.not_newline (c ++ nl ++ X) = nl ++ X.
Proof.
  induction c as [|x c IH]; simpl; [done|].
  intros [Hx Hc]%andb_true_iff. rewrite Hx. by apply IH.
Qed.

Lemma after_close_found c Y :
  has_pair "*" "/" c = false →
  after_close (c ++ "*/" ++ Y) = Some Y.
Proof.
  induction c as [|x c IH]; intros Hp; [done|].
  rewrite has_pair_cons in Hp. apply orb_false_iff in Hp as [Hx Hp].
  specialize (IH Hp).
  change ((x :: c) ++ "*/" ++ Y) with (x :: (c ++ "*/" ++ Y)).
  destruct c as [|d c].
  - simpl. case_bool_decide; simpl; done.
  - simpl in *. by rewrite Hx.
Qed.

Lemma pass1_segment s X :
  segment_ok s X = true →
  remove_line_comments (render s ++ X) = render1 s ++ remove_line_comments X.
Proof.
  destruct s as [t|c|c]; simpl; intros H.
  - apply andb_true_iff in H as [[H1 _]%andb_true_iff H3].
    apply negb_true_iff in H1, H3. apply keep_line; [done|]. by rewrite H3.
  - rewrite remove_line_comments_hit, <- app_assoc, after_not_newline by done.
    unfold nl. simpl. by rewrite remove_line_comments_miss.
  - apply andb_true_iff in H as [[_ H2]%andb_true_iff H3].
    apply negb_true_iff in H2, H3.
    rewrite 2!remove_line_comments_miss by done. do 2 f_equal.
    rewrite <- !app_assoc, keep_line; [|done|by rewrite andb_false_r].
    f_equal. simpl. rewrite 2!remove_line_comments_miss; [done| |done].
    by rewrite H3.
Qed.

Lemma pass2_segment s X Y :
  segment_ok s X = true →
  remove_block_comments (render1 s ++ Y) = erase s ++ remove_block_comments Y.
Proof.
  destruct s as [t|c|c]; simpl; intros H.
  - apply andb_true_iff in H as [[_ H2]%andb_true_iff H3].
    apply negb_true_iff in H2, H3. apply keep_block; [done|]. by rewrite H3.
  - unfold nl. simpl. by rewrite remove_block_comments_miss.
  - apply andb_true_iff in H as [[H1 _]%andb_true_iff _].
    apply negb_true_iff in H1.
    apply remove_block_comments_hit. rewrite <- app_assoc.
    by apply after_close_found.
Qed.

Lemma remove_comments_segments segs Z :
  well_commented segs Z = true →
  remove_comments (render_all segs ++ Z) = erase_all segs ++ remove_comments Z.
Proof.
  unfold remove_comments. intros H.
  assert (remove_line_comments (render_all segs ++ Z)
          = (segs ≫= render1) ++ remove_line_comments Z) as ->.
  { induction segs as [|s segs IH]; [done|].
    simpl in H. apply andb_true_iff in H as [Hs H].
    change (render_all (s :: segs)) with (render s ++ render_all segs).
    rewrite <- app_assoc, pass1_segment by done.
    rewrite IH by done. by rewrite app_assoc. }
  induction segs as [|s segs IH]; [done|].
  simpl in H. apply andb_true_iff in H as [Hs H].
  change ((s :: segs) ≫= render1) with (render1 s ++ (segs ≫= render1)).
  rewrite <- app_assoc, (pass2_segment _ _ _ Hs), IH by done.
  by rewrite app_assoc.
Qed.

(** Claim C2: the code does not keep it.  The rule [expr] below lies inside
    a block comment whose last line holds a line-comment marker.  The
    comment removal of [parse_grammar] deletes the line comments first, and
    with the rest of that line the closer; the block comment is no longer
    closed, stays in the text, and [expr] is extracted, where the text
    without its comments holds the rule [stat] alone. *)
Lemma block_comment_with_line_marker_leaks :
  render_all leaking_comment =
    "/*" ++ nl ++ "expr: foo;" ++ nl ++ "// x */" ++ nl ++ "stat: bar;"
  ∧ (extract_symbols (erase_all leaking_comment)).2 = {[ "stat" : str ]}
  ∧ (parse_grammar (render_all leaking_comment)).2
    = {[ "expr" : str ]} ∪ {[ "stat" : str ]}
  ∧ ("expr" : str) ∈ (parse_grammar (render_all leaking_comment)).2.
Proof.
  split; [done|]. split; [by vm_compute|].
  assert ((parse_grammar (render_all leaking_comment)).2
          = {[ "expr" : str ]} ∪ {[ "stat" : str ]}) as Hr by (by vm_compute).
  split; [exact Hr|]. rewrite Hr.
  apply elem_of_union_l, elem_of_singleton. done.
Qed.

(** Property X17.  Where comment removal does work: for a text made of
    code, line comments and closed block comments, where no block comment
    holds a line-comment marker or is directly followed by a slash, comment
    removal leaves the code and one newline per line comment, and the
    symbols are extracted from that text alone: nothing inside a comment is
    seen. *)
Theorem comment_immunity (segs : list segment) :
  well_commented segs [] = true →
  remove_comments (render_all segs) = erase_all segs
  ∧ parse_grammar (render_all segs) = extract_symbols (erase_all segs).
Proof.
  intros H. assert (remove_comments (render_all segs) = erase_all segs) as Hc.
  { pose proof (remove_comments_segments segs [] H) as Hs.
    by rewrite !app_nil_r in Hs. }
  split; [done|]. unfold parse_grammar. by rewrite Hc.
Qed.

(** X17 at a commented-out [expr] followed by [stat]; the rule set is
    [{stat}]. *)
Lemma comment_immunity_witness :
  well_commented commented_out_rule [] = true
  ∧ render_all commented_out_rule = "// expr: foo;" ++ nl ++ "stat: bar;"
  ∧ (parse_grammar ("// expr: foo;" ++ nl ++ "stat: bar;")).2 = {[ "stat" : str ]}.
Proof.
  split; [reflexivity|]. split; [reflexivity|].
  change ("// expr: foo;" ++ nl ++ "stat: bar;") with (render_all commented_out_rule).
  rewrite (proj2 (comment_immunity commented_out_rule eq_refl)).
  by vm_compute.
Defined.



Lemma remove_line_comments_cases s :
  s = []
  ∨ (∃ t, s = "/"%char :: "/"%char :: t
          ∧ remove_line_comments s = remove_line_comments (after Char.not_newline t))
  ∨ (∃ c s', s = c :: s' ∧ remove_line_comments s = c :: remove_line_comments s').
Proof.
  destruct s as [|c s]; [by left|]. right.
  destruct (bool_decide (c = "/"%char) && starts_with "/" s) eqn:E.
  - left. apply andb_true_iff in E as [Hc Hs]. apply bool_decide_eq_true in Hc as ->.
    destruct s as [|d t]; [done|]. simpl in Hs. apply bool_decide_eq_true in Hs as ->.
    exists t. split; [done|]. apply remove_line_comments_hit.
  - right. exists c, s. split; [done|]. by apply remove_line_comments_miss.
Qed.

Lemma starts_slash_remove_line_comments s :
  starts_with "/" (remove_line_comments s) = true → starts_with "/" s = true.
Proof.
  destruct (remove_line_comments_cases s) as [->|[(t & -> & _)|(c & s' & -> & ->)]]; done.
Qed.






(** ** Rule extraction *)

Lemma rule_at_Some s name rest :
  rule_at s = Some (name, rest) ↔
  ∃ w w', s = w ++ name ++ w' ++ ":" ++ rest ∧ spaces w ∧ rule_name name ∧ spaces w'.
Proof.
  split.
  - unfold rule_at. intros H.
    pose proof (run_after Char.is_space s) as Hs.
    destruct (after Char.is_space s) as [|c t]; [done|].
    destruct (Char.is_lower c) eqn:Hc; [|done].
    pose proof (run_after name_char t) as Ht.
    pose proof (run_after Char.is_space (after name_char t)) as Hu.
    destruct (after Char.is_space (after name_char t)) as [|d r]; [done|].
    destruct d as [[] [] [] [] [] [] [] []]; try done.
    injection H as <- <-.
    exists (run Char.is_space s), (run Char.is_space (after name_char t)).
    split; [|split; [apply run_Forall|split; [|apply run_Forall]]].
    + rewrite <- Hs at 1. f_equal. simpl. f_equal. rewrite <- Ht at 1.
      f_equal. by rewrite <- Hu at 1.
    + exists c, (run name_char t). split; [done|]. split; [done|apply run_Forall].
  - intros (w & w' & -> & Hw & (c & t & -> & Hc & Ht) & Hw').
    unfold rule_at.
    rewrite (after_app Char.is_space w); [|done|].
    2:{ simpl. destruct (Char.is_space c) eqn:E; [|done].
        apply space_not_lower in E. congruence. }
    simpl. rewrite Hc.
    assert (starts_in name_char (w' ++ ":" ++ rest) = false) as Hn.
    { destruct w' as [|x w']; [done|]. simpl.
      apply Forall_cons in Hw' as [Hx _].
      destruct (name_char x) eqn:E; [|done]. apply name_not_space in E. congruence. }
    rewrite (run_app name_char t), (after_app name_char t) by done.
    by rewrite (after_app Char.is_space w').
Qed.

Lemma rule_at_skip x s : Char.is_space x = true → rule_at (x :: s) = rule_at s.
Proof. intros H. unfold rule_at. simpl. by rewrite H. Qed.

Lemma rule_at_trail w' rest : spaces w' → rule_at (w' ++ ":" ++ rest) = None.
Proof.
  intros H. induction H as [|x w' Hx H IH]; [done|].
  simpl. by rewrite rule_at_skip.
Qed.

Lemma names_at_line_starts_app prev a b x :
  x ∈ names_at_line_starts (moved prev a) b → x ∈ names_at_line_starts prev (a ++ b).
Proof.
  revert prev. induction a as [|c a IH]; intros prev; [done|].
  rewrite moved_cons. intros H. simpl. apply elem_of_app. right. by apply IH.
Qed.

(** inside a match of the rule pattern no line start yields another name *)
Lemma names_within_match s name rest prev x :
  rule_at s = Some (name, rest) →
  x ∈ names_at_line_starts prev s →
  x = name ∨ x ∈ names_at_line_starts (Some ":"%char) rest.
Proof.
  intros Hs.
  apply rule_at_Some in Hs as (w & w' & -> & Hw & Hname & Hw').
  assert (∀ v, spaces v → rule_at (v ++ name ++ w' ++ ":" ++ rest) = Some (name, rest))
    as Hat.
  { intros v Hv. apply rule_at_Some. by exists v, w'. }
  destruct Hname as (c & t & -> & Hc & Ht).
  revert prev. induction Hw as [|y w Hy Hw IH]; intros prev.
  - (* at the name *)
    specialize (Hat [] (Forall_nil_2 _)).
    change ([] ++ (c :: t) ++ w' ++ ":" ++ rest)
      with (c :: t ++ w' ++ ":" ++ rest) in *.
    change (names_at_line_starts prev (c :: t ++ w' ++ ":" ++ rest)) with
      ((if Re.at_bol prev
        then match rule_at (c :: t ++ w' ++ ":" ++ rest) with
             | Some (name, _) => [name]
             | None => []
             end
        else []) ++ names_at_line_starts (Some c) (t ++ w' ++ ":" ++ rest)).
    rewrite Hat, elem_of_app. intros [H|H].
    { left. destruct (Re.at_bol prev); [|by apply elem_of_nil in H].
      by apply list_elem_of_singleton in H. }
    clear Hat. right. revert H. generalize c (lower_name c Hc). clear Hc.
    induction Ht as [|y t Hy Ht IH]; intros d Hd.
    + (* the white space before the colon *)
      simpl. clear Hd. generalize (Some d).
      induction Hw' as [|z w' Hz Hw' IH]; intros q.
      * simpl. rewrite elem_of_app. intros [H|H]; [|done].
        unfold rule_at in H. simpl in H. destruct (Re.at_bol q); by apply elem_of_nil in H.
      * simpl. rewrite elem_of_app. intros [H|H]; [|by eapply IH].
        rewrite rule_at_skip in H by done.
        change (w' ++ ":"%char :: rest) with (w' ++ ":" ++ rest) in H.
        rewrite rule_at_trail in H by done.
        destruct (Re.at_bol q); by apply elem_of_nil in H.
    + simpl. rewrite elem_of_app. intros [H|H]; [|by apply (IH y Hy)].
      unfold Re.at_bol in H. rewrite (name_not_newline d Hd) in H.
      by apply elem_of_nil in H.
  - pose proof (Hat (y :: w) (Forall_cons_2 _ _ _ Hy Hw)) as Hyw.
    change ((y :: w) ++ (c :: t) ++ w' ++ ":" ++ rest)
      with (y :: w ++ (c :: t) ++ w' ++ ":" ++ rest) in *.
    change (names_at_line_starts prev (y :: w ++ (c :: t) ++ w' ++ ":" ++ rest)) with
      ((if Re.at_bol prev
        then match rule_at (y :: w ++ (c :: t) ++ w' ++ ":" ++ rest) with
             | Some (name, _) => [name]
             | None => []
             end
        else []) ++ names_at_line_starts (Some y) (w ++ (c :: t) ++ w' ++ ":" ++ rest)).
    rewrite Hyw, elem_of_app. intros [H|H]; [|by apply (IH (Some y))].
    left. destruct (Re.at_bol prev); [|by apply elem_of_nil in H].
    by apply list_elem_of_singleton in H.
Qed.

Lemma names_found_miss prev c s :
  Re.match_at Pat.rule_pattern prev (c :: s) = None →
  names_found prev (c :: s) = names_found (Some c) s.
Proof. intros H. unfold names_found. by rewrite scan_miss. Qed.

Lemma names_found_hit prev s name rest :
  Re.at_bol prev = true → rule_at s = Some (name, rest) →
  length rest < length s
  ∧ names_found prev s = name :: names_found (Some ":"%char) rest.
Proof.
  intros Hb Hs. pose proof Hs as Hd.
  apply rule_at_Some in Hd as (w & w' & Heq & _ & (c & t & -> & _) & _).
  assert (s = (w ++ (c :: t) ++ w' ++ [":"%char]) ++ rest) as Hmt.
  { rewrite Heq. by rewrite <- !app_assoc. }
  split.
  { rewrite Hmt, !length_app. simpl. lia. }
  unfold names_found. rewrite Hmt.
  rewrite (scan_hit _ _ _ _ [(1, c :: t)]).
  - assert (moved prev (w ++ (c :: t) ++ w' ++ [":"%char]) = Some ":"%char) as ->
      by (by rewrite !moved_app).
    done.
  - by destruct w.
  - rewrite match_rule_pattern, Hb, <- Hmt, Hs. done.
Qed.

Lemma names_found_at_line_starts s prev x :
  x ∈ names_found prev s ↔ x ∈ names_at_line_starts prev s.
Proof.
  remember (length s) as n eqn:Hn. revert s prev Hn.
  induction n as [n IH] using lt_wf_ind. intros s prev Hn.
  destruct s as [|c s']; [done|].
  destruct (Re.at_bol prev) eqn:Hb.
  - destruct (rule_at (c :: s')) as [[name rest]|] eqn:Hs.
    + destruct (names_found_hit prev (c :: s') name rest Hb Hs) as [Hlen ->].
      rewrite elem_of_cons, (IH (length rest)); [|lia|done].
      split.
      * intros [->|H].
        -- simpl. rewrite Hb, Hs. apply elem_of_app. left. by apply list_elem_of_singleton.
        -- apply rule_at_Some in Hs as (w & w' & Heq & _).
           rewrite Heq.
           replace (w ++ name ++ w' ++ ":" ++ rest)
             with ((w ++ name ++ w' ++ [":"%char]) ++ rest)
             by (by rewrite <- !app_assoc).
           apply names_at_line_starts_app.
           assert (moved prev (w ++ name ++ w' ++ [":"%char]) = Some ":"%char) as ->
             by (by rewrite !moved_app).
           done.
      * by apply names_within_match.
    + rewrite names_found_miss by (by rewrite match_rule_pattern, Hb, Hs).
      rewrite (IH (length s')); [|subst n; simpl; lia|done].
      change (names_at_line_starts prev (c :: s')) with
        ((if Re.at_bol prev
          then match rule_at (c :: s') with Some (name, _) => [name] | None => [] end
          else []) ++ names_at_line_starts (Some c) s').
      by rewrite Hb, Hs.
  - rewrite names_found_miss by (by rewrite match_rule_pattern, Hb).
    rewrite (IH (length s')); [|subst n; simpl; lia|done].
    change (names_at_line_starts prev (c :: s')) with
      ((if Re.at_bol prev
        then match rule_at (c :: s') with Some (name, _) => [name] | None => [] end
        else []) ++ names_at_line_starts (Some c) s').
    by rewrite Hb.
Qed.

Lemma names_at_line_starts_site s prev x :
  x ∈ names_at_line_starts prev s ↔
  ∃ pre s2 rest, s = pre ++ s2 ∧ Re.at_bol (moved prev pre) = true
                 ∧ rule_at s2 = Some (x, rest).
Proof.
  revert prev. induction s as [|c s IH]; intros prev.
  - split; [by intros ?%elem_of_nil|].
    intros (pre & s2 & rest & H & _ & Hr). symmetry in H.
    apply app_eq_nil in H as [_ ->]. done.
  - simpl. rewrite elem_of_app, IH. split.
    + intros [H|(pre & s2 & rest & -> & Hb & Hr)].
      * destruct (Re.at_bol prev) eqn:Hb; [|by apply elem_of_nil in H].
        destruct (rule_at (c :: s)) as [[name rest]|] eqn:Hs; [|by apply elem_of_nil in H].
        apply list_elem_of_singleton in H as ->.
        by exists [], (c :: s), rest.
      * exists (c :: pre), s2, rest. by rewrite moved_cons.
    + intros (pre & s2 & rest & H & Hb & Hr). destruct pre as [|d pre].
      * left. simpl in H. subst s2. rewrite moved_nil in Hb. rewrite Hb, Hr.
        by apply list_elem_of_singleton.
      * right. injection H as -> ->. exists pre, s2, rest.
        by rewrite moved_cons in Hb.
Qed.

Lemma findall_rule_site text name :
  name ∈ Re.findall Pat.rule_pattern text ↔ rule_site text name.
Proof.
  change (Re.findall Pat.rule_pattern text) with (names_found None text).
  rewrite names_found_at_line_starts, names_at_line_starts_site.
  unfold rule_site, line_start. split.
  - intros (pre & s2 & rest & -> & Hb & Hr).
    apply rule_at_Some in Hr as (w & w' & -> & Hw & Hn & Hw').
    exists pre, w, w', rest. split; [done|]. split; [|done].
    unfold moved in Hb. by destruct (last pre).
  - intros (pre & w & w' & rest & -> & Hb & Hw & Hn & Hw').
    exists pre, (w ++ name ++ w' ++ ":" ++ rest), rest.
    split; [done|]. split.
    + unfold moved. by destruct (last pre).
    + apply rule_at_Some. by exists w, w'.
Qed.

Lemma rule_site_as_described_pair text name :
  rule_site_as_described text name →
  ∃ x, name_char x = true ∧ has_pair x ":" text = true.
Proof.
  intros (pre & w & rest & -> & _ & _ & (c & t & -> & Hc & Ht)).
  destruct (moved_Forall (λ x, name_char x = true) c t (lower_name c Hc) Ht)
    as (x & Hx & Hn).
  exists x. split; [done|].
  assert (∃ u, c :: t = u ++ [x]) as [u Hu].
  { unfold moved in Hx. destruct (last t) as [y|] eqn:E.
    - injection Hx as ->. apply last_Some in E as [u' ->]. by exists (c :: u').
    - injection Hx as ->. apply last_None in E as ->. by exists []. }
  rewrite Hu.
  replace (pre ++ w ++ (u ++ [x]) ++ ":" ++ rest)
    with ((pre ++ w ++ u) ++ x :: ":"%char :: rest)
    by (by rewrite <- !app_assoc).
  apply has_pair_middle.
Qed.

(** Claim C7, as stated, fails: the pattern allows white space, line breaks
    included, between the name and the colon.  Below, no name is immediately
    followed by a colon, and [expr] is a rule all the same. *)
Lemma colon_need_not_follow_at_once :
  (parse_grammar colon_on_next_line).2 = {[ "expr" : str ]}
  ∧ ¬ ∃ name, rule_site_as_described (remove_comments colon_on_next_line) name.
Proof.
  split; [by vm_compute|]. intros [name H].
  apply rule_site_as_described_pair in H as (x & Hx & Hp).
  vm_compute in Hp. destruct x as [[] [] [] [] [] [] [] []]; vm_compute in Hx, Hp; discriminate.
Qed.

(** Claim C7, amended.  The rules are exactly the snake_case forms of the
    names that stand, in the text without comments, at the start of a line
    after optional white space, begin with a lower-case letter, continue
    with letters and underscores, and are followed by optional white space
    (which may include line breaks) and a colon.  The result is a set: a
    name found at several places is one element, and no other text
    contributes a rule. *)
Theorem rule_extraction (g r : str) :
  r ∈ (parse_grammar g).2 ↔
  ∃ name, rule_site (remove_comments g) name ∧ r = to_snake_case name.
Proof.
  unfold parse_grammar, extract_symbols. simpl.
  rewrite elem_of_list_to_set, list_elem_of_fmap.
  split.
  - intros (name & -> & H). exists name. split; [|done]. by apply findall_rule_site.
  - intros (name & H & ->). exists name. split; [done|]. by apply findall_rule_site.
Qed.

(** C7 at a rule whose colon is on the next line. *)
Lemma rule_extraction_witness :
  rule_site (remove_comments colon_on_next_line) "expr"
  ∧ ("expr" : str) ∈ (parse_grammar colon_on_next_line).2.
Proof.
  assert (rule_site (remove_comments colon_on_next_line) "expr") as Hs.
  { exists [], [], (nl ++ "    "), " term ;". split; [by vm_compute|].
    split; [reflexivity|]. split; [constructor|]. split.
    - exists "e"%char, "xpr". split; [done|]. split; [reflexivity|].
      repeat constructor.
    - repeat constructor. }
  split; [done|].
  apply (rule_extraction colon_on_next_line "expr"). by exists "expr".
Defined.

(** ** The report *)

#[global] Instance str_le_total : Total str_le.
Proof.
  intros a. unfold str_le. induction a as [|x a IH]; intros [|y b]; simpl; auto.
  destruct (Nat.ltb_spec (Char.code x) (Char.code y)); [by left|].
  destruct (Nat.ltb_spec (Char.code y) (Char.code x)); [by right|].
  assert (Char.code x = Char.code y) as E by lia.
  rewrite E, Nat.eqb_refl. apply IH.
Qed.

#[global] Instance str_le_trans : Transitive str_le.
Proof.
  intros a. unfold str_le. induction a as [|x a IH]; intros [|y b] [|z c]; simpl; try done.
  destruct (Nat.ltb_spec (Char.code x) (Char.code y)) as [Hxy|Hxy].
  - intros _. destruct (Nat.ltb_spec (Char.code y) (Char.code z)) as [Hyz|Hyz].
    + intros _. destruct (Nat.ltb_spec (Char.code x) (Char.code z)); [done|lia].
    + destruct (Nat.eqb_spec (Char.code y) (Char.code z)) as [E|E]; [|done].
      intros _. destruct (Nat.ltb_spec (Char.code x) (Char.code z)); [done|lia].
  - destruct (Nat.eqb_spec (Char.code x) (Char.code y)) as [E|E]; [|done].
    rewrite E. intros Hab.
    destruct (Nat.ltb_spec (Char.code y) (Char.code z)); [done|].
    destruct (Nat.eqb_spec (Char.code y) (Char.code z)); [|done].
    by apply IH.
Qed.

#[global] Instance str_le_antisym : AntiSymm (=) str_le.
Proof.
  intros a. unfold str_le. induction a as [|x a IH]; intros [|y b]; simpl; try done.
  destruct (Nat.ltb_spec (Char.code x) (Char.code y)) as [Hxy|Hxy].
  - intros _. destruct (Nat.ltb_spec (Char.code y) (Char.code x)); [lia|].
    destruct (Nat.eqb_spec (Char.code y) (Char.code x)); [lia|done].
  - destruct (Nat.eqb_spec (Char.code x) (Char.code y)) as [E|E]; [|done].
    rewrite E, Nat.ltb_irrefl, Nat.eqb_refl. intros H1 H2.
    f_equal; [by apply code_inj|by apply IH].
Qed.

Lemma sorted_sorted l : StronglySorted str_le (sorted l).
Proof. apply StronglySorted_merge_sort; apply _. Qed.

Lemma sorted_perm l : sorted l ≡ₚ l.
Proof. apply merge_sort_Permutation. Qed.

Lemma sorted_order_free l1 l2 : l1 ≡ₚ l2 → sorted l1 = sorted l2.
Proof.
  intros H. apply (StronglySorted_unique str_le); try apply sorted_sorted.
  by rewrite !sorted_perm.
Qed.

Lemma sorted_nil_iff l : l = [] ↔ sorted l = [].
Proof.
  split; [by intros ->|]. intros H.
  apply Permutation_nil_r. rewrite <- H. symmetry. apply sorted_perm.
Qed.

Lemma perm_nil_iff (l1 l2 : list str) : l1 ≡ₚ l2 → (l1 = [] ↔ l2 = []).
Proof.
  intros H. split; intros ->.
  - by apply Permutation_nil_l in H. 
  - by apply Permutation_nil_r in H.
Qed.

Lemma declarations_section_order_free l1 l2 :
  l1 ≡ₚ l2 → declarations_section l1 = declarations_section l2.
Proof.
  intros H. unfold declarations_section.
  rewrite (sorted_order_free l1 l2 H).
  pose proof (perm_nil_iff l1 l2 H).
  destruct (decide (l1 = [])), (decide (l2 = [])); tauto.
Qed.

Lemma implementations_section_order_free l1 l2 :
  l1 ≡ₚ l2 → implementations_section l1 = implementations_section l2.
Proof.
  intros H. unfold implementations_section.
  rewrite (sorted_order_free l1 l2 H).
  pose proof (perm_nil_iff l1 l2 H).
  destruct (decide (l1 = [])), (decide (l2 = [])); tauto.
Qed.

Lemma report_of_listings_order_free ld ld' li li' :
  ld ≡ₚ ld' → li ≡ₚ li' → report_of_listings ld li = report_of_listings ld' li'.
Proof.
  intros Hd Hi. unfold report_of_listings.
  rewrite (declarations_section_order_free ld ld' Hd).
  rewrite (implementations_section_order_free li li' Hi).
  pose proof (perm_nil_iff ld ld' Hd). pose proof (perm_nil_iff li li' Hi).
  destruct (decide (ld = [] ∧ li = [])), (decide (ld' = [] ∧ li' = [])); tauto.
Qed.

Lemma elements_nil_iff (X : gset str) : elements X = [] ↔ X = ∅.
Proof. rewrite elements_empty_iff. by unfold_leibniz. Qed.

Lemma main_reads_all script_dir read g h c :
  read (path_join script_dir "grammar/Zephyr.g4") = Some g →
  read (path_join script_dir "include/Parser.h") = Some h →
  read (path_join script_dir "src/Parser.cpp") = Some c →
  main script_dir read =
  Returned (report (parse_grammar g).2 (declared_methods_of h) (implemented_methods_of c)).
Proof.
  intros Hg Hh Hc. unfold main, analyze_cpp_files. rewrite Hg, Hh, Hc.
  by destruct (parse_grammar g).
Qed.

(** Claim C1.  The analysis is plain set difference: a name is a missing
    declaration exactly when it is a rule and not declared, a missing
    implementation exactly when it is a rule and not implemented.  When
    every rule is declared and implemented both differences are empty and
    the report is the in-sync message alone, with no stub. *)
Theorem analysis_is_set_difference (R D I : gset str) :
  (∀ x, x ∈ (analyze R D I).1 ↔ x ∈ R ∧ x ∉ D)
  ∧ (∀ x, x ∈ (analyze R D I).2 ↔ x ∈ R ∧ x ∉ I)
  ∧ (R ⊆ D → R ⊆ I →
     analyze R D I = (∅, ∅) ∧ report R D I = [in_sync_message]).
Proof.
  split; [|split].
  - intros x. simpl. set_solver.
  - intros x. simpl. set_solver.
  - intros HD HI. unfold report, analyze.
    rewrite (subseteq_empty_difference_L R D HD).
    rewrite (subseteq_empty_difference_L R I HI).
    done.
Qed.

(** C1 at the rule set of the scenario, with every rule declared and
    implemented. *)
Lemma analysis_is_set_difference_witness :
  scenario_rules ⊆ scenario_rules ∧ report scenario_rules scenario_rules scenario_rules = [in_sync_message].
Proof.
  split; [done|].
  apply (analysis_is_set_difference scenario_rules scenario_rules scenario_rules); done.
Defined.

(** Claim C8.  The report depends on the three sets only, not on the order
    in which the sets are iterated: two runs over the same sets print the
    same text, and each missing list is emitted in increasing lexicographic
    order: the report itself is the in-sync message, or the three opening
    lines, the declaration stubs of the missing declarations in sorted order
    under their header, and the implementation stubs of the missing
    implementations in sorted order under theirs. *)
Theorem report_is_deterministic (R D I : gset str) (ld1 li1 ld2 li2 : list str) :
  listing_of (R ∖ D) ld1 → listing_of (R ∖ I) li1 →
  listing_of (R ∖ D) ld2 → listing_of (R ∖ I) li2 →
  stdout_text (report_of_listings ld1 li1) = stdout_text (report_of_listings ld2 li2)
  ∧ report_of_listings ld1 li1 = report R D I
  ∧ ∃ names_d names_i,
      StronglySorted str_le names_d ∧ listing_of (R ∖ D) names_d
      ∧ StronglySorted str_le names_i ∧ listing_of (R ∖ I) names_i
      ∧ declarations_section ld1 =
          (if decide (names_d = []) then []
           else ["---Missing Method Declarations (for include/Parser.h)---" : str]
                ++ (declaration_stub <$> names_d) ++ [[]])
      ∧ implementations_section li1 =
          (if decide (names_i = []) then []
           else ["---Missing Method Implementations (for src/Parser.cpp)---" : str]
                ++ (names_i ≫= implementation_stub))
      ∧ report R D I =
          (if decide (names_d = [] ∧ names_i = []) then [in_sync_message]
           else
             [ "---Analysis Complete---" ++ nl;
               "The following are suggestions for what might be missing from your parser." : str;
               "Please review them carefully before adding to your code." ++ nl ]
             ++ (if decide (names_d = []) then []
                 else ["---Missing Method Declarations (for include/Parser.h)---" : str]
                      ++ (declaration_stub <$> names_d) ++ [[]])
             ++ (if decide (names_i = []) then []
                 else ["---Missing Method Implementations (for src/Parser.cpp)---" : str]
                      ++ (names_i ≫= implementation_stub))).
Proof.
  unfold listing_of. intros Hd1 Hi1 Hd2 Hi2.
  assert (report_of_listings ld1 li1 = report R D I) as Hrep.
  { unfold report, analyze. by apply report_of_listings_order_free. }
  split; [|split].
  - f_equal. apply report_of_listings_order_free.
    + by rewrite Hd1, Hd2.
    + by rewrite Hi1, Hi2.
  - exact Hrep.
  - exists (sorted ld1), (sorted li1).
    split; [apply sorted_sorted|]. split; [by rewrite sorted_perm|].
    split; [apply sorted_sorted|]. split; [by rewrite sorted_perm|].
    rewrite <- Hrep.
    unfold report_of_listings, declarations_section, implementations_section.
    pose proof (sorted_nil_iff ld1). pose proof (sorted_nil_iff li1).
    split; [|split].
    + destruct (decide (ld1 = [])), (decide (sorted ld1 = [])); tauto.
    + destruct (decide (li1 = [])), (decide (sorted li1 = [])); tauto.
    + destruct (decide (ld1 = [] ∧ li1 = [])),
        (decide (sorted ld1 = [] ∧ sorted li1 = [])); [done|tauto|tauto|].
      destruct (decide (ld1 = [])), (decide (sorted ld1 = [])),
        (decide (li1 = [])), (decide (sorted li1 = [])); tauto || done.
Qed.

(** C8 for two iteration orders of the missing implementations of the
    scenario. *)
Lemma report_is_deterministic_witness :
  stdout_text (report_of_listings [ "block" : str ] [ "expr_statement" : str; "block" : str ])
  = stdout_text (report_of_listings [ "block" : str ] [ "block" : str; "expr_statement" : str ]).
Proof.
  apply (report_is_deterministic scenario_rules {[ "expr_statement" : str ]} ∅
           [ "block" : str ] [ "expr_statement" : str; "block" : str ]
           [ "block" : str ] [ "block" : str; "expr_statement" : str ]);
    unfold listing_of; vm_compute; (reflexivity || apply perm_swap).
Defined.

(** Claim C9, as stated, fails: a declaration-stub line starts with four
    spaces, so the line for [block] is not the bare declaration. *)
Lemma declaration_stub_is_indented :
  report {[ "block" : str ]} ∅ {[ "block" : str ]} =
    [ "---Analysis Complete---" ++ nl;
      "The following are suggestions for what might be missing from your parser." : str;
      "Please review them carefully before adding to your code." ++ nl;
      "---Missing Method Declarations (for include/Parser.h)---" : str;
      "    std::unique_ptr<Block> block();" : str;
      [] ]
  ∧ ("std::unique_ptr<Block> block();" : str) ∉ report {[ "block" : str ]} ∅ {[ "block" : str ]}.
Proof.
  assert (report {[ "block" : str ]} ∅ {[ "block" : str ]} =
    [ "---Analysis Complete---" ++ nl;
      "The following are suggestions for what might be missing from your parser." : str;
      "Please review them carefully before adding to your code." ++ nl;
      "---Missing Method Declarations (for include/Parser.h)---" : str;
      "    std::unique_ptr<Block> block();" : str;
      [] ]) as -> by (by vm_compute).
  split; [done|]. intros H. apply list_elem_of_In in H. vm_compute in H.
  repeat (destruct H as [H|H]; [discriminate H|]). done.
Qed.

(** Claim C9, amended.  When a declaration is missing, the report holds,
    after the section header, one line per missing declaration in sorted
    order, each made of four spaces, [std::unique_ptr<], the PascalCase type
    name, [> ], the rule name and [();], and then an empty line. *)
Theorem declaration_stub_lines (R D I : gset str) :
  R ∖ D ≠ ∅ →
  report R D I =
    [ "---Analysis Complete---" ++ nl;
      "The following are suggestions for what might be missing from your parser." : str;
      "Please review them carefully before adding to your code." ++ nl ]
    ++ ["---Missing Method Declarations (for include/Parser.h)---" : str]
    ++ ((λ rule, "    std::unique_ptr<" ++ node_type rule ++ "> " ++ rule ++ "();")
          <$> sorted (elements (R ∖ D)))
    ++ [[]]
    ++ implementations_section (elements (R ∖ I)).
Proof.
  intros HD. unfold report, analyze, report_of_listings, declarations_section.
  rewrite <- elements_nil_iff in HD.
  destruct (decide (_ ∧ _)) as [[? _]|_]; [done|].
  destruct (decide (elements (R ∖ D) = [])); [done|].
  by rewrite <- !app_assoc.
Qed.

(** C9 for the one missing declaration [block]. *)
Lemma declaration_stub_lines_witness :
  ({[ "block" : str ]} : gset str) ∖ ∅ ≠ ∅
  ∧ ("    std::unique_ptr<Block> block();" : str)
      ∈ report {[ "block" : str ]} ∅ {[ "block" : str ]}.
Proof.
  assert (({[ "block" : str ]} : gset str) ∖ ∅ ≠ ∅) as Hne.
  { intros H. apply (f_equal elements) in H. vm_compute in H. discriminate H. }
  split; [done|].
  rewrite (declaration_stub_lines {[ "block" : str ]} ∅ {[ "block" : str ]} Hne).
  apply list_elem_of_In. vm_compute. tauto.
Defined.

Lemma scenario_analysis (D I : gset str) :
  ("expr_statement" : str) ∈ D → ("block" : str) ∉ D →
  ("expr_statement" : str) ∉ I → ("block" : str) ∉ I →
  analyze scenario_rules D I = ({[ "block" : str ]}, scenario_rules).
Proof.
  intros H1 H2 H3 H4. unfold analyze, scenario_rules. f_equal.
  - apply set_eq. intros x.
    rewrite elem_of_difference, elem_of_union, !elem_of_singleton.
    split; [intros [[->| ->] ?]; done|intros ->; by split; [right|]].
  - apply set_eq. intros x.
    rewrite elem_of_difference, elem_of_union, !elem_of_singleton.
    split; [by intros [? _]|]. intros H. split; [done|]. by destruct H as [->| ->].
Qed.

Lemma scenario_report_of_listings :
  report_of_listings (elements ({[ "block" : str ]} : gset str)) (elements scenario_rules)
  = scenario_report.
Proof.
  rewrite (report_of_listings_order_free
             (elements ({[ "block" : str ]} : gset str)) [ "block" : str ]
             (elements scenario_rules) [ "expr_statement" : str; "block" : str ]).
  - by vm_compute.
  - by rewrite elements_singleton.
  - unfold scenario_rules. rewrite elements_union_singleton.
    + by rewrite elements_singleton.
    + by rewrite elem_of_singleton.
Qed.

(** Claim C6.  When the grammar yields exactly the rules [expr_statement]
    (from [exprStatement]) and [block], the header declares
    [expr_statement] only and the source implements neither, the missing
    declarations are [{block}], the missing implementations both rules, and
    [main] prints one declaration stub, for [Block], and two implementation
    stubs, for [Block] and [ExprStatement]. *)
Theorem end_to_end_scenario (script_dir : str) (read : str → option str) (g h c : str) :
  read (path_join script_dir "grammar/Zephyr.g4") = Some g →
  read (path_join script_dir "include/Parser.h") = Some h →
  read (path_join script_dir "src/Parser.cpp") = Some c →
  (parse_grammar g).2 = scenario_rules →
  ("expr_statement" : str) ∈ declared_methods_of h →
  ("block" : str) ∉ declared_methods_of h →
  ("expr_statement" : str) ∉ implemented_methods_of c →
  ("block" : str) ∉ implemented_methods_of c →
  analyze (parse_grammar g).2 (declared_methods_of h) (implemented_methods_of c)
    = ({[ "block" : str ]}, {[ "expr_statement" : str ]} ∪ {[ "block" : str ]})
  ∧ main script_dir read = Returned scenario_report.
Proof.
  intros Hg Hh Hc HR H1 H2 H3 H4.
  pose proof (scenario_analysis _ _ H1 H2 H3 H4) as Ha.
  rewrite HR. split; [done|].
  rewrite (main_reads_all _ _ _ _ _ Hg Hh Hc), HR. f_equal.
  unfold report. rewrite Ha. apply scenario_report_of_listings.
Qed.

(** C6 on three files with these contents. *)
Lemma end_to_end_scenario_witness :
  (parse_grammar scenario_grammar).2 = scenario_rules
  ∧ declared_methods_of scenario_header = {[ "expr_statement" : str ]}
  ∧ implemented_methods_of scenario_source = ∅
  ∧ main "/zephyr" scenario_files = Returned scenario_report.
Proof.
  split; [by vm_compute|]. split; [by vm_compute|]. split; [by vm_compute|].
  apply (end_to_end_scenario "/zephyr" scenario_files
           scenario_grammar scenario_header scenario_source).
  - reflexivity.
  - reflexivity.
  - reflexivity.
  - by vm_compute.
  - vm_compute. reflexivity.
  - vm_compute. discriminate.
  - vm_compute. discriminate.
  - vm_compute. discriminate.
Defined.

(** * Further properties *)

(** ** What [to_snake_case] keeps *)

Lemma snake_char_lower c : snake_char c = true → Char.lower c = c.
Proof. each_char c. Qed.
Lemma snake_char_not_upper c : snake_char c = true → Char.is_upper c = false.
Proof. each_char c. Qed.
Lemma name_char_lower c : name_char c = true → lower_or_underscore (Char.lower c) = true.
Proof. each_char c. Qed.
Lemma lower_char_lower c : Char.is_lower c = true → Char.lower c = c.
Proof. each_char c. Qed.

Lemma without_underscores_app s t :
  without_underscores (s ++ t) = without_underscores s ++ without_underscores t.
Proof. apply filter_app. Qed.

Lemma without_underscores_insW q c s : without_underscores (lower (insW q c s)) = [].
Proof. destruct q as [p|]; [|done]. simpl. by destruct (boundary p c s). Qed.

Lemma without_underscores_snake q s :
  without_underscores (lower (with_underscores q s)) = without_underscores (lower s).
Proof.
  revert q. induction s as [|c s IH]; intros q; [done|].
  rewrite with_underscores_cons.
  change (lower (insW q c s ++ c :: with_underscores (Some c) s))
    with (lower (insW q c s ++ [c]  ++ with_underscores (Some c) s)).
  unfold lower at 1. rewrite !fmap_app, !without_underscores_app.
  change (Char.lower <$> insW q c s) with (lower (insW q c s)).
  rewrite (without_underscores_insW q c s). simpl.
  change (Char.lower <$> with_underscores (Some c) s)
    with (lower (with_underscores (Some c) s)).
  rewrite IH. unfold without_underscores, lower. simpl. rewrite !filter_cons.
  by destruct (decide (Char.lower c ≠ "_"%char)).
Qed.

Lemma with_underscores_length q s : length s ≤ length (with_underscores q s).
Proof.
  revert q. induction s as [|c s IH]; intros q; [done|].
  rewrite with_underscores_cons, length_app. simpl. specialize (IH (Some c)). lia.
Qed.

(** Property X1.  On a name whose characters are code points below 256,
    as every [str] here is, [to_snake_case] only inserts underscores and
    lower-cases: without the underscores its result is the lower-cased input
    without its underscores, the result is never shorter than the input, and
    no underscore is put in front: the result starts with the lower-cased
    first character of the input.  (Beyond that range [str.lower] depends on
    the neighbours of a capital sigma, and the first part does not hold.) *)
Theorem to_snake_case_only_adds_underscores (s : str) :
  without_underscores (to_snake_case s) = without_underscores (lower s)
  ∧ length s ≤ length (to_snake_case s)
  ∧ head (to_snake_case s) = Char.lower <$> head s.
Proof.
  rewrite snake_positional. split; [apply without_underscores_snake|]. split.
  - unfold lower. rewrite length_fmap. apply with_underscores_length.
  - by destruct s.
Qed.

(** Property X2.  A name that is in snake_case already, made of lower-case
    letters, digits and underscores, is returned unchanged. *)
Theorem snake_case_names_are_fixed (s : str) :
  Forall (λ c, snake_char c = true) s → to_snake_case s = s.
Proof.
  intros H. rewrite to_snake_case_fixed.
  - induction H as [|c s Hc Hs IH]; [done|].
    change (Char.lower c :: lower s = c :: s). by rewrite IH, snake_char_lower.
  - eapply Forall_impl; [done|]. intros c Hc. by apply snake_char_not_upper.
Qed.

(** X2 at [parse_expr_2]. *)
Lemma snake_case_names_are_fixed_witness :
  to_snake_case "parse_expr_2" = "parse_expr_2".
Proof. apply (snake_case_names_are_fixed "parse_expr_2"). by repeat constructor. Defined.

Lemma with_underscores_names q t :
  Forall (λ x, name_char x = true) t →
  Forall (λ x, lower_or_underscore x = true) (lower (with_underscores q t)).
Proof.
  intros H. revert q. induction H as [|c t Hc Ht IH]; intros q; [constructor|].
  rewrite with_underscores_cons. unfold lower in *. rewrite fmap_app.
  apply Forall_app. split.
  - destruct q as [p|]; [|constructor]. simpl.
    destruct (boundary p c t); by repeat constructor.
  - simpl. constructor; [by apply name_char_lower|apply IH].
Qed.

Lemma to_snake_case_rule_name name : rule_name name → method_name (to_snake_case name).
Proof.
  intros (c & t & -> & Hc & Ht). rewrite snake_positional.
  exists c, (lower (with_underscores (Some c) t)). split; [|split; [done|]].
  - unfold lower. simpl. by rewrite lower_char_lower.
  - by apply with_underscores_names.
Qed.

Lemma rules_method_names g : set_Forall method_name (parse_grammar g).2.
Proof.
  intros r. unfold parse_grammar, extract_symbols. simpl.
  rewrite elem_of_list_to_set, list_elem_of_fmap.
  intros (name & -> & H). apply findall_rule_site in H.
  destruct H as (pre & w & w' & rest & _ & _ & _ & Hn & _).
  by apply to_snake_case_rule_name.
Qed.

(** Property X3.  Every rule name [parse_grammar] returns starts with a
    lower-case letter and holds lower-case letters and underscores only,
    whatever the grammar text. *)
Theorem rules_are_method_names (g r : str) :
  r ∈ (parse_grammar g).2 → method_name r.
Proof. apply rules_method_names. Qed.

(** X3 at a rule of the scenario. *)
Lemma rules_are_method_names_witness :
  ("expr_statement" : str) ∈ (parse_grammar scenario_grammar).2
  ∧ method_name "expr_statement".
Proof.
  assert (("expr_statement" : str) ∈ (parse_grammar scenario_grammar).2) as H.
  { apply (bool_decide_unpack _). by vm_compute. }
  split; [done|]. by apply (rules_are_method_names scenario_grammar "expr_statement").
Defined.

(** ** The type name of a rule *)

Lemma lower_or_underscore_cases c :
  lower_or_underscore c = true → c = "_"%char ∨ (c ≠ "_"%char ∧ Char.is_lower c = true).
Proof. each_char c; (by left) || (by right). Qed.

Lemma lower_letter c :
  Char.is_lower c = true →
  c ≠ "_"%char ∧ Char.lower c = c ∧ Char.lower (Char.upper c) = c
  ∧ Char.is_upper (Char.upper c) = true ∧ is_letter c = true.
Proof. each_char c. Qed.

Lemma node_type_sep t : node_type ("_"%char :: t) = node_type t.
Proof. done. Qed.

Lemma without_underscores_sep t : without_underscores ("_"%char :: t) = without_underscores t.
Proof. done. Qed.

Lemma without_underscores_other c t :
  c ≠ "_"%char → without_underscores (c :: t) = c :: without_underscores t.
Proof. intros Hc. unfold without_underscores. by rewrite filter_cons_True. Qed.

Lemma is_letter_upper c : Char.is_upper c = true → is_letter c = true.
Proof. unfold is_letter. intros ->. apply orb_true_r. Qed.

Lemma node_type_letters t :
  Forall (λ x, lower_or_underscore x = true) t →
  (Forall (λ c, is_letter c = true) (word_tail t)
   ∧ lower (word_tail t) = without_underscores t)
  ∧ (Forall (λ c, is_letter c = true) (node_type t)
     ∧ lower (node_type t) = without_underscores t).
Proof.
  induction 1 as [|c t Hc Ht [[IH1 IH2] [IH3 IH4]]]; [by repeat split|].
  destruct (lower_or_underscore_cases c Hc) as [->|[Hn Hl]].
  - rewrite word_tail_sep, node_type_sep, without_underscores_sep. by repeat split.
  - destruct (lower_letter c Hl) as (_ & Hll & Hlu & Hu & Hlt).
    rewrite word_tail_cons, node_type_cons, without_underscores_other by done.
    repeat split.
    + constructor; [by rewrite Hll|done].
    + change (Char.lower (Char.lower c) :: lower (word_tail t) = c :: without_underscores t).
      by rewrite !Hll, IH2.
    + constructor; [by apply is_letter_upper|done].
    + change (Char.lower (Char.upper c) :: lower (word_tail t) = c :: without_underscores t).
      by rewrite Hlu, IH2.
Qed.

Lemma node_type_method_name r :
  method_name r → type_name (node_type r) ∧ lower (node_type r) = without_underscores r.
Proof.
  intros (c & t & -> & Hc & Ht).
  destruct (lower_letter c Hc) as (Hn & Hll & Hlu & Hu & Hlt).
  destruct (node_type_letters t Ht) as [[H1 H2] _].
  rewrite node_type_cons, without_underscores_other by done. split.
  - by exists (Char.upper c), (word_tail t).
  - change (Char.lower (Char.upper c) :: lower (word_tail t) = c :: without_underscores t).
    by rewrite Hlu, H2.
Qed.

(** Property X4.  The node type suggested for a rule of the grammar is a
    capital letter followed by letters, and it is the rule name without its
    underscores up to the case of the letters. *)
Theorem node_type_of_rule_is_type_name (g r : str) :
  r ∈ (parse_grammar g).2 →
  type_name (node_type r) ∧ lower (node_type r) = without_underscores r.
Proof.
  intros H. by apply node_type_method_name, (rules_method_names g).
Qed.

(** X4 at a rule of the scenario. *)
Lemma node_type_of_rule_is_type_name_witness :
  ("expr_statement" : str) ∈ (parse_grammar scenario_grammar).2
  ∧ type_name (node_type "expr_statement")
  ∧ lower (node_type "expr_statement") = without_underscores "expr_statement".
Proof.
  assert (("expr_statement" : str) ∈ (parse_grammar scenario_grammar).2) as H.
  { apply (bool_decide_unpack _). by vm_compute. }
  split; [done|].
  by apply (node_type_of_rule_is_type_name scenario_grammar "expr_statement").
Defined.

(** ** The shape of the names found *)

(** *** Reading a match backwards *)

Lemma chr_inv p k prev s cs res :
  Re.m (Chr p) k prev s cs = Some res →
  ∃ c s', s = c :: s' ∧ p c = true ∧ k (Some c) s' cs = Some res.
Proof.
  simpl. destruct s as [|c s]; [done|]. destruct (p c) eqn:Hc; [|done].
  intros H. by exists c, s.
Qed.

Lemma star_inv g p k prev s cs res :
  Re.star g p k prev s cs = Some res →
  ∃ mt s' prev', s = mt ++ s' ∧ Forall (λ x, p x = true) mt
                 ∧ k prev' s' cs = Some res.
Proof.
  revert prev. induction s as [|c s IH]; intros prev; simpl.
  - intros H. by exists [], [], prev.
  - destruct (p c) eqn:Hc.
    + assert (Re.star g p k (Some c) s cs = Some res ∨ k prev (c :: s) cs = Some res
              → ∃ mt s' prev', c :: s = mt ++ s' ∧ Forall (λ x, p x = true) mt
                               ∧ k prev' s' cs = Some res) as Hor.
      { intros [H|H].
        - apply IH in H as (mt & s' & prev' & -> & Hmt & H).
          exists (c :: mt), s', prev'. split; [done|]. split; [by constructor|done].
        - by exists [], (c :: s), prev. }
      destruct g; unfold Re.orelse.
      * destruct (Re.star true p k (Some c) s cs) eqn:E; intros H; apply Hor;
          [left; congruence|by right].
      * destruct (k prev (c :: s) cs) eqn:E; intros H; apply Hor;
          [right; congruence|by left].
    + intros H. by exists [], (c :: s), prev.
Qed.

Lemma lits_inv t r k prev s cs res :
  Re.m (Re.lits t r) k prev s cs = Some res →
  ∃ s' prev', s = t ++ s' ∧ Re.m r k prev' s' cs = Some res.
Proof.
  revert prev s. induction t as [|c t IH]; intros prev s; simpl.
  - intros H. by exists s, prev.
  - destruct s as [|d s]; [done|]. destruct (bool_decide (d = c)) eqn:Hd; [|done].
    apply bool_decide_eq_true_1 in Hd as ->.
    intros H. apply IH in H as (s' & prev' & -> & H). by exists s', prev'.
Qed.

Lemma group_plus_inv n p k prev s cs res :
  Re.m (Group n (Re.plus p)) k prev s cs = Some res →
  ∃ x s' prev', s = x ++ s' ∧ name_in p x ∧ k prev' s' ((n, x) :: cs) = Some res.
Proof.
  simpl. destruct s as [|c s]; [done|]. destruct (p c) eqn:Hc; [|done].
  intros H. apply star_inv in H as (mt & s' & prev' & -> & Hmt & H).
  exists (c :: mt), s', prev'. split; [done|]. split; [split; [done|by constructor]|].
  replace (take (length (c :: mt ++ s') - length s') (c :: mt ++ s'))
    with (c :: mt) in H; [done|].
  replace (length (c :: mt ++ s') - length s') with (length (c :: mt))
    by (simpl; rewrite length_app; lia).
  symmetry. apply (take_app_length (c :: mt) s').
Qed.

Lemma lit_inv c0 k prev s cs res :
  Re.m (Re.lit c0) k prev s cs = Some res →
  ∃ s', s = c0 :: s' ∧ k (Some c0) s' cs = Some res.
Proof.
  intros H. apply chr_inv in H as (c & s' & -> & Hc & H).
  apply bool_decide_eq_true_1 in Hc as ->. by exists s'.
Qed.

Lemma cls_lower_or_underscore c :
  Re.cls [Char.is_lower; Char.is_underscore] c = lower_or_underscore c.
Proof. unfold Re.cls, lower_or_underscore. simpl. by rewrite orb_false_r. Qed.

Lemma cls_upper_or_underscore c :
  Re.cls [Char.is_upper; Char.is_underscore] c = upper_or_underscore c.
Proof. unfold Re.cls, upper_or_underscore. simpl. by rewrite orb_false_r. Qed.

Lemma name_in_ext p q x : (∀ c, p c = q c) → name_in p x → name_in q x.
Proof.
  intros Hpq [Hne Hx]. split; [done|].
  eapply Forall_impl; [done|]. intros c Hc. simpl in Hc. by rewrite <- Hpq.
Qed.

(** the end of the two C++ patterns: the parameter list up to a closing
    parenthesis of the line *)
Lemma parameters_shape prev s cs rest cs' :
  Re.m (Cat (Re.lit "("%char)
          (Cat (Star true Char.not_newline) (Re.lit ")"%char)))
    (λ _ s' cs', Some (s', cs')) prev s cs = Some (rest, cs') →
  ∃ dots, s = "("%char :: dots ++ ")"%char :: rest
          ∧ Forall (λ c, Char.not_newline c = true) dots ∧ cs' = cs.
Proof.
  intros H. change (Re.m _ _ prev s cs) with
    (Re.m (Re.lit "("%char)
       (Re.star true Char.not_newline
          (Re.m (Re.lit ")"%char) (λ _ s' cs', Some (s', cs')))) prev s cs) in H.
  apply lit_inv in H as (s1 & -> & H).
  apply star_inv in H as (dots & s2 & prev2 & -> & Hdots & H).
  apply lit_inv in H as (s3 & -> & H). injection H as <- <-. by exists dots.
Qed.

(** what a match of the token pattern spans *)
Lemma token_pattern_shape prev s rest cs :
  Re.match_at Pat.token_pattern prev s = Some (rest, cs) →
  ∃ w x w', s = w ++ x ++ w' ++ ":"%char :: rest
            ∧ Re.at_bol prev = true ∧ spaces w
            ∧ name_in upper_or_underscore x ∧ spaces w' ∧ cs = [(1, x)].
Proof.
  unfold Re.match_at, Pat.token_pattern. intros H.
  change (Re.m _ _ prev s []) with
    (if Re.at_bol prev then
       Re.star true Char.is_space
         (Re.m (Group 1 (Re.plus (Re.cls [Char.is_upper; Char.is_underscore])))
            (Re.star true Char.is_space
               (Re.m (Re.lit ":"%char) (λ _ s' cs', Some (s', cs'))))) prev s []
     else None) in H.
  destruct (Re.at_bol prev); [|done].
  apply star_inv in H as (w & s1 & prev1 & -> & Hw & H).
  apply group_plus_inv in H as (x & s2 & prev2 & -> & Hx & H).
  apply star_inv in H as (w' & s3 & prev3 & -> & Hw' & H).
  apply lit_inv in H as (s4 & -> & H). injection H as <- <-.
  exists w, x, w'. repeat split; try done.
  - eapply name_in_ext; [apply cls_upper_or_underscore|done].
  - eapply name_in_ext; [apply cls_upper_or_underscore|done].
Qed.

(** what a match of the pattern for implementations spans *)
Lemma implemented_pattern_shape prev s rest cs :
  Re.match_at Pat.implemented_pattern prev s = Some (rest, cs) →
  ∃ x dots, s = "Parser::" ++ x ++ "("%char :: dots ++ ")"%char :: rest
            ∧ name_in lower_or_underscore x
            ∧ Forall (λ c, Char.not_newline c = true) dots ∧ cs = [(1, x)].
Proof.
  unfold Re.match_at, Pat.implemented_pattern. intros H.
  apply lits_inv in H as (s1 & prev1 & -> & H).
  change (Re.m _ _ prev1 s1 []) with
    (Re.m (Group 1 (Re.plus (Re.cls [Char.is_lower; Char.is_underscore])))
       (Re.m (Cat (Re.lit "("%char)
                (Cat (Star true Char.not_newline) (Re.lit ")"%char)))
          (λ _ s' cs', Some (s', cs'))) prev1 s1 []) in H.
  apply group_plus_inv in H as (x & s2 & prev2 & -> & Hx & H).
  apply parameters_shape in H as (dots & -> & Hdots & ->).
  exists x, dots. repeat split; try done.
  - by destruct Hx.
  - eapply name_in_ext; [apply cls_lower_or_underscore|done].
Qed.

(** what a match of the pattern for declarations spans *)
Lemma declared_pattern_shape prev s rest cs :
  Re.match_at Pat.declared_pattern prev s = Some (rest, cs) →
  ∃ T sp x dots,
    s = "std::unique_ptr<" ++ T ++ ">"%char :: sp ++ x ++ "("%char :: dots
        ++ ")"%char :: rest
    ∧ name_in Char.is_word T ∧ name_in Char.is_space sp
    ∧ name_in lower_or_underscore x
    ∧ Forall (λ c, Char.not_newline c = true) dots ∧ cs = [(1, x)].
Proof.
  unfold Re.match_at, Pat.declared_pattern. intros H.
  apply lits_inv in H as (s1 & prev1 & -> & H).
  change (Re.m _ _ prev1 s1 []) with
    (Re.m (Chr Char.is_word)
       (Re.star true Char.is_word
          (Re.m (Re.lit ">"%char)
             (Re.m (Chr Char.is_space)
                (Re.star true Char.is_space
                   (Re.m (Group 1 (Re.plus (Re.cls [Char.is_lower; Char.is_underscore])))
                      (Re.m (Cat (Re.lit "("%char)
                               (Cat (Star true Char.not_newline) (Re.lit ")"%char)))
                         (λ _ s' cs', Some (s', cs'))))))))
       prev1 s1 []) in H.
  apply chr_inv in H as (c1 & s2 & -> & Hc1 & H).
  apply star_inv in H as (w1 & s3 & prev3 & -> & Hw1 & H).
  apply lit_inv in H as (s4 & -> & H).
  apply chr_inv in H as (c3 & s5 & -> & Hc3 & H).
  apply star_inv in H as (w2 & s6 & prev6 & -> & Hw2 & H).
  apply group_plus_inv in H as (x & s7 & prev7 & -> & Hx & H).
  apply parameters_shape in H as (dots & -> & Hdots & ->).
  exists (c1 :: w1), (c3 :: w2), x, dots. split; [done|].
  split; [split; [done|by constructor]|].
  split; [split; [done|by constructor]|].
  split; [|done]. eapply name_in_ext; [apply cls_lower_or_underscore|done].
Qed.

(** every element of [findall] is the first group of a match that starts
    somewhere in the text *)
Lemma scan_sound r prev n s cs :
  inr cs ∈ Re.scan r prev n s →
  ∃ a b rest, s = a ++ b ∧ Re.match_at r (moved prev a) b = Some (rest, cs).
Proof.
  revert prev n. induction s as [|c s IH]; intros prev n; simpl.
  - by intros ?%elem_of_nil.
  - assert (∀ n', inr cs ∈ Re.scan r (Some c) n' s →
                  ∃ a b rest, c :: s = a ++ b
                              ∧ Re.match_at r (moved prev a) b = Some (rest, cs)) as Hs.
    { intros n' H. apply IH in H as (a & b & rest & -> & H).
      exists (c :: a), b, rest. by rewrite moved_cons. }
    destruct n as [|n]; [|apply Hs].
    destruct (Re.match_at r prev (c :: s)) as [[rest cs']|] eqn:E.
    + intros [H|H]%elem_of_cons; [|by eapply Hs].
      injection H as ->. by exists [], (c :: s), rest.
    + intros [H|H]%elem_of_cons; [done|by eapply Hs].
Qed.

Lemma findall_sound r s x :
  x ∈ Re.findall r s →
  ∃ a b rest cs, s = a ++ b ∧ Re.match_at r (moved None a) b = Some (rest, cs)
                 ∧ x = Re.group 1 cs.
Proof.
  unfold Re.findall, Re.finditer. rewrite list_elem_of_fmap.
  intros (cs & -> & H). apply list_elem_of_omap in H as ([c|cs'] & H & Hs); [done|].
  injection Hs as ->. apply scan_sound in H as (a & b & rest & -> & H).
  by exists a, b, rest, cs.
Qed.

Lemma moved_None a : moved None a = last a.
Proof. unfold moved. by destruct (last a). Qed.

Lemma method_name_not_token r :
  method_name r → ¬ name_in upper_or_underscore r.
Proof.
  intros (c & t & -> & Hc & _) [_ H]. apply Forall_cons in H as [H _].
  revert Hc H. each_char c.
Qed.

Lemma token_found_site text t :
  t ∈ Re.findall Pat.token_pattern text → token_site text t.
Proof.
  intros H. apply findall_sound in H as (a & b & rest & cs & -> & H & ->).
  apply token_pattern_shape in H as (w & x & w' & -> & Hb & Hw & Hx & Hw' & ->).
  exists a, w, w', rest. split; [done|]. split; [|done].
  unfold line_start. by rewrite <- moved_None.
Qed.

(** Property X5.  Every token [parse_grammar] returns is a nonempty name of
    upper-case letters and underscores that stands, in the text without
    comments, at the start of a line after optional white space and before
    optional white space and a colon; and no name is both a token and a
    rule. *)
Theorem tokens_are_upper_case_names (g : str) :
  (∀ t, t ∈ (parse_grammar g).1 → token_site (remove_comments g) t)
  ∧ (parse_grammar g).1 ## (parse_grammar g).2.
Proof.
  assert (∀ t, t ∈ (parse_grammar g).1 → token_site (remove_comments g) t) as Ht.
  { intros t. unfold parse_grammar, extract_symbols. simpl.
    rewrite elem_of_list_to_set. apply token_found_site. }
  split; [done|]. intros x Hx Hr.
  apply Ht in Hx as (pre & w & w' & rest & _ & _ & _ & Hx & _).
  by apply (method_name_not_token x (rules_method_names g x Hr)).
Qed.

(** X5 at the token of a grammar with one rule and one token. *)
Lemma tokens_are_upper_case_names_witness :
  ("TOK" : str) ∈ (parse_grammar never_closed).1
  ∧ token_site (remove_comments never_closed) "TOK".
Proof.
  assert (("TOK" : str) ∈ (parse_grammar never_closed).1) as H.
  { apply (bool_decide_unpack _). by vm_compute. }
  split; [done|].
  by apply (proj1 (tokens_are_upper_case_names never_closed) "TOK").
Defined.

(** Property X6.  When both files can be read, every method name
    [analyze_cpp_files] returns, declared or implemented, is a nonempty name
    of lower-case letters and underscores. *)
Theorem found_methods_are_lower_case_names
    (read : str → option str) (header_path source_path : str) (D I : gset str) :
  analyze_cpp_files read header_path source_path = inr (D, I) →
  ∀ x, x ∈ D ∪ I → name_in lower_or_underscore x.
Proof.
  unfold analyze_cpp_files.
  destruct (read header_path) as [h|]; [|done].
  destruct (read source_path) as [c|]; [|done].
  intros [= <- <-] x [H|H]%elem_of_union.
  - unfold declared_methods_of in H. rewrite elem_of_list_to_set in H.
    apply findall_sound in H as (a & b & rest & cs & _ & H & ->).
    by apply declared_pattern_shape in H as (T & sp & y & dots & _ & _ & _ & Hy & _ & ->).
  - unfold implemented_methods_of in H. rewrite elem_of_list_to_set in H.
    apply findall_sound in H as (a & b & rest & cs & _ & H & ->).
    by apply implemented_pattern_shape in H as (y & dots & _ & Hy & _ & ->).
Qed.

(** X6 at the files of the scenario. *)
Lemma found_methods_are_lower_case_names_witness :
  analyze_cpp_files scenario_files "/zephyr/include/Parser.h" "/zephyr/src/Parser.cpp"
  = inr (declared_methods_of scenario_header, implemented_methods_of scenario_source)
  ∧ name_in lower_or_underscore "expr_statement".
Proof.
  split; [reflexivity|].
  apply (found_methods_are_lower_case_names scenario_files
           "/zephyr/include/Parser.h" "/zephyr/src/Parser.cpp"
           (declared_methods_of scenario_header)
           (implemented_methods_of scenario_source) eq_refl "expr_statement").
  apply (bool_decide_unpack _). by vm_compute.
Defined.

(** ** What comment removal keeps *)

(** *** Comment removal only deletes *)

Lemma scan_deletes r prev n s :
  flat_map (λ e, match e with inl c => [c] | inr cs => Re.expand [] cs end)
    (Re.scan r prev n s) `sublist_of` s.
Proof.
  revert prev n. induction s as [|c s IH]; intros prev n; simpl; [constructor|].
  destruct n as [|n]; [|by apply sublist_cons].
  destruct (Re.match_at r prev (c :: s)) as [[rest cs]|]; simpl.
  - by apply sublist_cons.
  - by apply sublist_skip.
Qed.

Lemma sub_deletes r s : Re.sub r [] s `sublist_of` s.
Proof. apply scan_deletes. Qed.

(** Property X7.  The comment removal at the head of [parse_grammar] only
    deletes: what is left is a subsequence of the grammar text, in the same
    order, and never longer. *)
Theorem comment_removal_only_deletes (g : str) :
  remove_comments g `sublist_of` g
  ∧ length (remove_comments g) ≤ length g.
Proof.
  assert (remove_comments g `sublist_of` g) as H.
  { unfold remove_comments, remove_block_comments, remove_line_comments.
    etrans; apply sub_deletes. }
  split; [done|]. by apply sublist_length.
Qed.

(** *** Line comments *)

Lemma no_marker_left g : has_pair "/" "/" (remove_line_comments g) = false.
Proof.
  remember (length g) as n eqn:Hn. revert g Hn.
  induction n as [n IH] using lt_wf_ind. intros g Hn.
  destruct g as [|c s]; [done|].
  destruct (bool_decide (c = "/"%char) && starts_with "/" s) eqn:E.
  - apply andb_true_iff in E as [Hc Hs]. apply bool_decide_eq_true in Hc as ->.
    destruct s as [|d t]; [done|]. simpl in Hs. apply bool_decide_eq_true in Hs as ->.
    rewrite remove_line_comments_hit. eapply IH; [|done].
    subst n. simpl. pose proof (after_length Char.not_newline t). lia.
  - rewrite remove_line_comments_miss by done.
    rewrite has_pair_cons. apply orb_false_iff. split.
    + destruct (bool_decide (c = "/"%char)); [|done]. simpl in *.
      destruct (starts_with "/" (remove_line_comments s)) eqn:E'; [|done].
      apply starts_slash_remove_line_comments in E'. congruence.
    + eapply IH; [|done]. subst n. simpl. lia.
Qed.

(** Property X8.  After the first substitution of [parse_grammar] no
    line-comment marker is left in the text, and applying that substitution
    again changes nothing. *)
Theorem line_comments_are_gone (g : str) :
  has_pair "/" "/" (remove_line_comments g) = false
  ∧ remove_line_comments (remove_line_comments g) = remove_line_comments g.
Proof.
  pose proof (no_marker_left g) as H. split; [done|].
  rewrite <- (app_nil_r (remove_line_comments g)) at 1.
  rewrite keep_line; [apply app_nil_r|done|].
  simpl. apply andb_false_r.
Qed.

(** *** The text of a line comment is never looked at *)

Lemma after_stops p a :
  after p a = [] ∨ ∃ d a2, after p a = d :: a2 ∧ p d = false.
Proof.
  induction a as [|x a IH]; simpl; [by left|].
  destruct (p x) eqn:Hx; [done|]. right. by exists x, a.
Qed.

Lemma after_prefix p a Y :
  after p (a ++ Y) = match after p a with [] => after p Y | r => r ++ Y end.
Proof.
  induction a as [|x a IH]; simpl; [by destruct (after p Y)|].
  destruct (p x) eqn:Hx; [done|]. done.
Qed.

Lemma after_end_of_line c tail :
  Forall (λ x, Char.not_newline x = true) c →
  starts_in Char.not_newline tail = false →
  after Char.not_newline (c ++ tail) = tail.
Proof. apply after_app. Qed.

Lemma line_comment_text pre c tail :
  Forall (λ x, Char.not_newline x = true) c →
  starts_in Char.not_newline tail = false →
  remove_line_comments (pre ++ "//" ++ c ++ tail)
  = remove_line_comments (pre ++ "//" ++ tail).
Proof.
  intros Hc Ht. remember (length pre) as n eqn:Hn. revert pre Hn.
  induction n as [n IH] using lt_wf_ind. intros pre Hn.
  assert (∀ u, Forall (λ x, Char.not_newline x = true) u →
               remove_line_comments ("/"%char :: "/"%char :: u ++ tail)
               = remove_line_comments tail) as Hhit.
  { intros u Hu. rewrite remove_line_comments_hit. by rewrite after_end_of_line. }
  pose proof (Hhit [] (Forall_nil_2 _)) as Hhit0. simpl in Hhit0.
  destruct pre as [|x pre].
  - simpl. by rewrite (Hhit c Hc), Hhit0.
  - destruct pre as [|y pre].
    + simpl. destruct (decide (x = "/"%char)) as [->|Hx].
      * pose proof (Hhit ("/"%char :: c)) as H1. simpl in H1. rewrite H1 by (by constructor).
        pose proof (Hhit ["/"%char]) as H2. simpl in H2. by rewrite H2 by (by repeat constructor).
      * rewrite !(remove_line_comments_miss x) by (by rewrite bool_decide_false).
        f_equal. by rewrite (Hhit c Hc), Hhit0.
    + change ((x :: y :: pre) ++ "//" ++ c ++ tail)
        with (x :: y :: (pre ++ "//" ++ c ++ tail)).
      change ((x :: y :: pre) ++ "//" ++ tail)
        with (x :: y :: (pre ++ "//" ++ tail)).
      destruct (bool_decide (x = "/"%char) && bool_decide (y = "/"%char)) eqn:E.
      * apply andb_true_iff in E as [Hx Hy].
        apply bool_decide_eq_true in Hx as ->. apply bool_decide_eq_true in Hy as ->.
        rewrite !remove_line_comments_hit, !(after_prefix Char.not_newline pre).
        destruct (after_stops Char.not_newline pre) as [->|(d & a2 & Hd & Hp)].
        -- change ("//" ++ c ++ tail) with ("/"%char :: "/"%char :: c ++ tail).
           change ("//" ++ tail) with ("/"%char :: "/"%char :: [] ++ tail).
           simpl after. rewrite after_end_of_line by done.
           pose proof (after_end_of_line [] tail (Forall_nil_2 _) Ht) as H0.
           simpl in H0. by rewrite H0.
        -- rewrite Hd.
           assert (length (d :: a2) < n) as Hlt.
           { subst n. pose proof (after_length Char.not_newline pre) as Hl.
             rewrite Hd in Hl. simpl in *. lia. }
           apply (IH (length (d :: a2)) Hlt (d :: a2) eq_refl).
      * rewrite !(remove_line_comments_miss x) by done.
        f_equal. apply (IH (length (y :: pre)) ltac:(subst n; simpl; lia) (y :: pre) eq_refl).
Qed.

(** Property X9.  The text of a line comment is never looked at: for a
    marker [//] anywhere in the grammar, replacing the text [c] between the
    marker and the end of the line by any other text [c'] without a newline
    leaves the result of [parse_grammar] as it is. *)
Theorem line_comment_text_is_ignored (pre c c' tail : str) :
  Forall (λ x, Char.not_newline x = true) c →
  Forall (λ x, Char.not_newline x = true) c' →
  starts_in Char.not_newline tail = false →
  parse_grammar (pre ++ "//" ++ c ++ tail) = parse_grammar (pre ++ "//" ++ c' ++ tail).
Proof.
  intros Hc Hc' Ht. unfold parse_grammar, remove_comments.
  by rewrite (line_comment_text pre c), (line_comment_text pre c').
Qed.

(** X9 for a rule and a token written in a line comment. *)
Lemma line_comment_text_is_ignored_witness :
  parse_grammar ("stat: bar; " ++ "//" ++ " expr: foo;" ++ nl ++ "block: stat*;")
  = parse_grammar ("stat: bar; " ++ "//" ++ " TOK: 'x';" ++ nl ++ "block: stat*;").
Proof.
  apply (line_comment_text_is_ignored "stat: bar; " " expr: foo;" " TOK: 'x';"
           (nl ++ "block: stat*;")).
  - by repeat constructor.
  - by repeat constructor.
  - reflexivity.
Defined.

(** ** From the type name back to the rule *)

Lemma lower_word_no_sep w :
  Forall (λ c, Char.is_lower c = true) w → Forall (λ c, c ≠ "_"%char) w.
Proof.
  intros H. eapply Forall_impl; [done|]. intros c Hc. by destruct (lower_letter c Hc).
Qed.

Lemma lower_lower_word w : Forall (λ c, Char.is_lower c = true) w → lower w = w.
Proof.
  induction 1 as [|c w Hc Hw IH]; [done|].
  change (Char.lower c :: lower w = c :: w). rewrite IH.
  by destruct (lower_letter c Hc) as (_ & -> & _).
Qed.

Lemma split_no_sep w : Forall (λ c, c ≠ "_"%char) w → split "_" w = [w].
Proof.
  induction 1 as [|c w Hc Hw IH]; [done|].
  simpl. rewrite bool_decide_false by done. by rewrite IH.
Qed.

Lemma split_app_sep w rest :
  Forall (λ c, c ≠ "_"%char) w → split "_" (w ++ "_"%char :: rest) = w :: split "_" rest.
Proof.
  induction 1 as [|c w Hc Hw IH]; [done|].
  simpl. rewrite bool_decide_false by done. by rewrite IH.
Qed.

Lemma split_snake_join ws :
  ws ≠ [] → Forall lower_word ws → split "_" (snake_join ws) = ws.
Proof.
  intros Hne H. induction H as [|w ws [_ Hw] Hws IH]; [done|].
  destruct ws as [|v ws]; simpl.
  - by apply split_no_sep, lower_word_no_sep.
  - rewrite split_app_sep by by apply lower_word_no_sep.
    f_equal. by apply IH.
Qed.

Lemma lower_app s t : lower (s ++ t) = lower s ++ lower t.
Proof. apply fmap_app. Qed.

Lemma snake_of_capitalized ws a w' q :
  Char.is_lower a = true → Forall (λ c, Char.is_lower c = true) w' →
  Forall lower_word ws → no_adjacent_singletons ((a :: w') :: ws) = true →
  lower (with_underscores q (join (capitalize <$> ((a :: w') :: ws))))
  = lower (insW q (Char.upper a) (w' ++ join (capitalize <$> ws)))
    ++ snake_join ((a :: w') :: ws).
Proof.
  intros Ha Hw' Hws. revert a w' q Ha Hw'.
  induction Hws as [|v ws [Hv0 Hv] Hws IH]; intros a w' q Ha Hw' Hadj.
  - change (join (capitalize <$> [a :: w'])) with (Char.upper a :: (lower w' ++ [])).
    change (join (capitalize <$> [])) with (@nil ascii).
    rewrite !app_nil_r, (lower_lower_word w') by done.
    rewrite with_underscores_cons, lower_app.
    rewrite with_underscores_no_upper
      by (eapply Forall_impl; [done|]; apply lower_not_upper_char).
    f_equal. change (Char.lower (Char.upper a) :: lower w' = a :: w').
    rewrite (lower_lower_word w') by done.
    by destruct (lower_letter a Ha) as (_ & _ & -> & _).
  - destruct v as [|b v']; [done|]. apply Forall_cons in Hv as [Hb Hv'].
    change (no_adjacent_singletons ((a :: w') :: (b :: v') :: ws))
      with (negb ((length (a :: w') =? 1) && (length (b :: v') =? 1))
            && no_adjacent_singletons ((b :: v') :: ws)) in Hadj.
    apply andb_true_iff in Hadj as [Hone Hadj].
    change (join (capitalize <$> ((a :: w') :: (b :: v') :: ws)))
      with (Char.upper a :: (lower w' ++ join (capitalize <$> ((b :: v') :: ws)))).
    rewrite (lower_lower_word w') by done.
    rewrite with_underscores_cons, lower_app. f_equal.
    rewrite with_underscores_lower_run by done.
    change (lower (Char.upper a :: w' ++ ?X))
      with (Char.lower (Char.upper a) :: lower (w' ++ X)).
    rewrite lower_app, (lower_lower_word w') by done.
    destruct (lower_letter a Ha) as (_ & _ & -> & Hua & _).
    change (snake_join ((a :: w') :: (b :: v') :: ws))
      with ((a :: w') ++ "_"%char :: snake_join ((b :: v') :: ws)).
    rewrite <- app_comm_cons. f_equal. f_equal.
    rewrite (IH b v' _ Hb Hv' Hadj).
    assert (∃ p, moved (Some (Char.upper a)) w' = Some p
                 ∧ boundary p (Char.upper b) (v' ++ join (capitalize <$> ws)) = true)
      as (p & -> & Hp).
    { destruct (lower_letter b Hb) as (_ & _ & _ & Hub & _).
      unfold boundary. rewrite Hub. simpl.
      destruct w' as [|c t].
      - exists (Char.upper a). split; [done|].
        destruct v' as [|d v'']; [done|]. apply Forall_cons in Hv' as [Hd _].
        simpl. rewrite Hd, andb_true_r.
        assert (Char.not_newline (Char.upper a) = true) as ->; [|done].
        clear -Hua. revert Hua. generalize (Char.upper a). intros c. each_char c.
      - rewrite moved_cons. apply Forall_cons in Hw' as [Hc Ht].
        destruct (moved_Forall (λ x, Char.is_lower x = true) c t Hc Ht) as (d & -> & Hd).
        exists d. split; [done|]. rewrite (lower_low_dig d Hd). apply orb_true_r. }
    unfold insW. by rewrite Hp.
Qed.

(** Property X10.  For a rule name made of nonempty lower-case words joined
    by underscores, no two one-letter words next to each other, the node
    type is the words capitalized and joined, and [to_snake_case] maps the
    node type back to the rule name. *)
Theorem snake_of_type_name (ws : list str) :
  ws ≠ [] → Forall lower_word ws → no_adjacent_singletons ws = true →
  node_type (snake_join ws) = join (capitalize <$> ws)
  ∧ to_snake_case (node_type (snake_join ws)) = snake_join ws.
Proof.
  intros Hne Hws Hadj.
  assert (node_type (snake_join ws) = join (capitalize <$> ws)) as Hn.
  { unfold node_type. by rewrite split_snake_join. }
  split; [done|]. rewrite Hn, snake_positional.
  destruct ws as [|w ws]; [done|]. apply Forall_cons in Hws as [[Hw0 Hw] Hws].
  destruct w as [|a w']; [done|]. apply Forall_cons in Hw as [Ha Hw'].
  by rewrite snake_of_capitalized.
Qed.

(** X10 at [expr_statement]. *)
Lemma snake_of_type_name_witness :
  node_type "expr_statement" = "ExprStatement"
  ∧ to_snake_case (node_type "expr_statement") = "expr_statement".
Proof.
  destruct (snake_of_type_name [ "expr" : str; "statement" : str ]) as [H1 H2].
  - done.
  - repeat constructor; done.
  - reflexivity.
  - split; [exact H1|exact H2].
Defined.

(** ** Declarations and definitions that are found *)

(** *** Matching forwards *)

Lemma lits_match t R k prev s cs :
  Re.m (Re.lits t R) k prev (t ++ s) cs = Re.m R k (moved prev t) s cs.
Proof.
  revert prev. induction t as [|c t IH]; intros prev; [done|].
  rewrite moved_cons.
  change (Re.m (Re.lits (c :: t) R) k prev ((c :: t) ++ s) cs)
    with (if bool_decide (c = c) then Re.m (Re.lits t R) k (Some c) (t ++ s) cs else None).
  by rewrite (bool_decide_eq_true_2 (c = c) eq_refl).
Qed.

Lemma star_greedy_some p k prev a b cs :
  Forall (λ x, p x = true) a → (∀ prev', is_Some (k prev' b cs)) →
  is_Some (Re.star true p k prev (a ++ b) cs).
Proof.
  intros Ha Hk. revert prev. induction Ha as [|x a Hx Ha IH]; intros prev.
  - destruct b as [|c b]; simpl; [apply Hk|]. destruct (p c); [|apply Hk].
    destruct (Re.star true p k (Some c) b cs); simpl; [done|apply Hk].
  - simpl. rewrite Hx. by destruct (IH (Some x)) as [res ->].
Qed.

Lemma cat_lit_match c R k prev s cs :
  Re.m (Cat (Re.lit c) R) k prev (c :: s) cs = Re.m R k (Some c) s cs.
Proof. simpl. by rewrite (bool_decide_eq_true_2 (c = c) eq_refl). Qed.

Lemma cat_lit_fail c0 R k prev c s cs :
  c ≠ c0 → Re.m (Cat (Re.lit c0) R) k prev (c :: s) cs = None.
Proof. intros H. simpl. by rewrite bool_decide_false. Qed.

Lemma cat_group_fail n p R k prev c s cs :
  p c = false → Re.m (Cat (Group n (Re.plus p)) R) k prev (c :: s) cs = None.
Proof. intros H. simpl. by rewrite H. Qed.

Lemma cat_plus_match p R k prev w rest cs :
  name_in p w → starts_in p rest = false →
  (∀ prev' c s', p c = true → Re.m R k prev' (c :: s') cs = None) →
  Re.m (Cat (Re.plus p) R) k prev (w ++ rest) cs = Re.m R k (moved prev w) rest cs.
Proof.
  intros [Hne Hw] Hrest Hk. destruct w as [|c w]; [done|].
  apply Forall_cons in Hw as [Hc Hw].
  change (Re.m (Cat (Re.plus p) R) k prev ((c :: w) ++ rest) cs)
    with (if p c then Re.star true p (Re.m R k) (Some c) (w ++ rest) cs else None).
  rewrite Hc, star_greedy_commit by done.
  rewrite run_app, after_app by done. by rewrite moved_cons.
Qed.

Lemma cat_group_match p R k prev x rest cs :
  name_in p x → starts_in p rest = false →
  (∀ prev' c s' cs', p c = true → Re.m R k prev' (c :: s') cs' = None) →
  Re.m (Cat (Group 1 (Re.plus p)) R) k prev (x ++ rest) cs
  = Re.m R k (moved prev x) rest ((1, x) :: cs).
Proof.
  intros [Hne Hx] Hrest Hk. destruct x as [|c x]; [done|].
  apply Forall_cons in Hx as [Hc Hx].
  change (Re.m (Cat (Group 1 (Re.plus p)) R) k prev ((c :: x) ++ rest) cs)
    with (if p c then
            Re.star true p
              (λ prev' s' cs',
                 Re.m R k prev' s'
                   ((1, take (length ((c :: x) ++ rest) - length s') ((c :: x) ++ rest))
                      :: cs'))
              (Some c) (x ++ rest) cs
          else None).
  rewrite Hc, star_greedy_commit by (intros; by apply Hk).
  rewrite run_app, after_app by done. rewrite moved_cons.
  replace (length ((c :: x) ++ rest) - length rest) with (length (c :: x))
    by (rewrite length_app; lia).
  by rewrite take_app_length.
Qed.

Lemma parameters_match prev args post cs :
  Forall (λ c, Char.not_newline c = true) args →
  ∃ rest,
    Re.m (Cat (Re.lit "("%char)
            (Cat (Star true Char.not_newline) (Re.lit ")"%char)))
      (λ _ s' cs', Some (s', cs')) prev ("("%char :: args ++ ")"%char :: post) cs
    = Some (rest, cs).
Proof.
  intros Hargs.
  destruct (star_greedy_some Char.not_newline
              (Re.m (Re.lit ")"%char) (λ _ s' cs', Some (s', cs')))
              (Some "("%char) args (")"%char :: post) cs Hargs) as [[rest cs'] H];
    [by eexists|].
  assert (Re.m (Cat (Re.lit "("%char)
                  (Cat (Star true Char.not_newline) (Re.lit ")"%char)))
            (λ _ s' cs', Some (s', cs')) prev ("("%char :: args ++ ")"%char :: post) cs
          = Some (rest, cs')) as Hm by exact H.
  destruct (parameters_shape _ _ _ _ _ Hm) as (dots & _ & _ & ->). by exists rest.
Qed.

Lemma word_not_closer c : Char.is_word c = true → c ≠ ">"%char.
Proof. each_char c. Qed.
Lemma space_not_name c : Char.is_space c = true → lower_or_underscore c = false.
Proof. each_char c. Qed.
Lemma name_not_open c : lower_or_underscore c = true → c ≠ "("%char.
Proof. each_char c. Qed.
Lemma method_char_not_space c : lower_or_underscore c = true → Char.is_space c = false.
Proof. each_char c. Qed.

Lemma declared_match prev T sp name args post :
  name_in Char.is_word T → name_in Char.is_space sp →
  name_in lower_or_underscore name →
  Forall (λ c, Char.not_newline c = true) args →
  ∃ rest,
    Re.match_at Pat.declared_pattern prev
      ("std::unique_ptr<" ++ T ++ ">"%char :: sp ++ name ++ "("%char :: args
       ++ ")"%char :: post)
    = Some (rest, [(1, name)]).
Proof.
  intros HT Hsp Hname Hargs. unfold Re.match_at, Pat.declared_pattern.
  rewrite lits_match.
  rewrite cat_plus_match; [|done|done|].
  2:{ intros prev' c s' Hc. by apply cat_lit_fail, word_not_closer. }
  rewrite cat_lit_match.
  rewrite cat_plus_match; [|done| |].
  2:{ destruct Hname as [Hne Hn]. destruct name as [|x0 x]; [done|].
      apply Forall_cons in Hn as [Hx0 _]. simpl. by apply method_char_not_space. }
  2:{ intros prev' c s' Hc. apply cat_group_fail.
      rewrite cls_lower_or_underscore. by apply space_not_name. }
  rewrite cat_group_match; [| |done|].
  2:{ eapply name_in_ext; [|done]. intros c. by rewrite cls_lower_or_underscore. }
  2:{ intros prev' c s' cs' Hc. rewrite cls_lower_or_underscore in Hc.
      by apply cat_lit_fail, name_not_open. }
  by apply parameters_match.
Qed.

Lemma implemented_match prev name args post :
  name_in lower_or_underscore name →
  Forall (λ c, Char.not_newline c = true) args →
  ∃ rest,
    Re.match_at Pat.implemented_pattern prev
      ("Parser::" ++ name ++ "("%char :: args ++ ")"%char :: post)
    = Some (rest, [(1, name)]).
Proof.
  intros Hname Hargs. unfold Re.match_at, Pat.implemented_pattern.
  rewrite lits_match.
  rewrite cat_group_match; [| |done|].
  2:{ eapply name_in_ext; [|done]. intros c. by rewrite cls_lower_or_underscore. }
  2:{ intros prev' c s' cs' Hc. rewrite cls_lower_or_underscore in Hc.
      by apply cat_lit_fail, name_not_open. }
  by apply parameters_match.
Qed.

(** *** The scan arrives at a match that no earlier match runs into *)

Lemma scan_reaches r pre s x :
  1 ≤ min_len r →
  (∀ a b prev rest cs, pre = a ++ b → b ≠ [] →
     Re.match_at r prev (b ++ s) = Some (rest, cs) → ∃ b', rest = b' ++ s) →
  (∀ prev, ∃ rest cs, Re.match_at r prev s = Some (rest, cs) ∧ Re.group 1 cs = x) →
  x ∈ Re.findall r (pre ++ s).
Proof.
  intros Hr Hpre Hs. unfold Re.findall, Re.finditer. generalize (@None ascii).
  remember (length pre) as n eqn:Hn. revert pre Hn Hpre.
  induction n as [n IH] using lt_wf_ind. intros pre Hn Hpre prev.
  destruct pre as [|c pre].
  - destruct (Hs prev) as (rest & cs & Hm & <-).
    destruct (scan_step r prev s rest cs Hr Hm) as (mt & _ & _ & Hsc).
    change ([] ++ s) with s. rewrite Hsc. simpl. by left.
  - destruct (Re.match_at r prev ((c :: pre) ++ s)) as [[rest cs]|] eqn:E.
    + destruct (Hpre [] (c :: pre) prev rest cs eq_refl ltac:(done) E) as [b' ->].
      destruct (scan_step r prev _ _ cs Hr E) as (mt & Hmt & Hne & Hsc).
      rewrite Hsc. simpl. right.
      assert (c :: pre = mt ++ b') as Hsplit.
      { rewrite app_assoc in Hmt. by apply app_inv_tail in Hmt. }
      apply (IH (length b')); [|done|].
      * subst n. rewrite Hsplit, length_app. destruct mt; [done|]. simpl. lia.
      * intros a b prev' rest' cs' -> Hb Hm.
        apply (Hpre (mt ++ a) b prev' rest' cs'); [|done|done].
        by rewrite Hsplit, app_assoc.
    + change ((c :: pre) ++ s) with (c :: (pre ++ s)) in *.
      rewrite scan_miss by done. simpl.
      apply (IH (length pre)); [subst n; simpl; lia|done|].
      intros a b prev' rest' cs' -> Hb Hm.
      by apply (Hpre (c :: a) b prev' rest' cs').
Qed.

(** *** No earlier match runs into a declaration on its own line *)

Lemma no_newline_in M :
  Forall (λ c, Char.not_newline c = true) M → "010"%char ∉ M.
Proof. rewrite Forall_forall. intros H Hin. by apply H in Hin. Qed.

Lemma word_not_newline c : Char.is_word c = true → Char.not_newline c = true.
Proof. each_char c. Qed.
Lemma method_char_not_newline c : lower_or_underscore c = true → Char.not_newline c = true.
Proof. each_char c. Qed.
Lemma bol_newline c : Re.at_bol (Some c) = true → c = "010"%char.
Proof. simpl. each_char c. Qed.

Lemma ends_line before a l :
  line_start before → before = a ++ l → l ≠ [] → ∃ l', l = l' ++ ["010"%char].
Proof.
  unfold line_start. intros Hb -> Hl.
  destruct (exists_last Hl) as (l' & c & ->).
  rewrite app_assoc, last_snoc in Hb. apply bol_newline in Hb as ->. by exists l'.
Qed.

Lemma spaces_split w1 r1 w2 r2 :
  spaces w1 → spaces w2 →
  starts_in Char.is_space r1 = false → starts_in Char.is_space r2 = false →
  w1 ++ r1 = w2 ++ r2 → r1 = r2.
Proof.
  intros H1 H2 Hr1 Hr2 H.
  rewrite <- (after_app Char.is_space w1 r1 H1 Hr1).
  rewrite <- (after_app Char.is_space w2 r2 H2 Hr2). by rewrite H.
Qed.

(** a name and an opening parenthesis do not start the text
    [std::unique_ptr<] *)
Lemma name_is_not_the_marker x Y Z :
  name_in lower_or_underscore x →
  x ++ "("%char :: Y ≠ "std::unique_ptr<" ++ Z.
Proof.
  intros [Hne Hx] H.
  destruct x as [|x0 x]; [done|]. injection H as -> H.
  destruct x as [|x1 x]; [discriminate H|]. injection H as -> H.
  destruct x as [|x2 x]; [discriminate H|]. injection H as -> H.
  destruct x as [|x3 x]; [discriminate H|]. injection H as -> H.
  by do 3 apply Forall_cons in Hx as [_ Hx]; apply Forall_cons in Hx as [Hx _].
Qed.

Lemma declared_no_straddle before indent s' a b prev rest cs :
  line_start before → spaces indent →
  before ++ indent = a ++ b → b ≠ [] →
  Re.match_at Pat.declared_pattern prev (b ++ "std::unique_ptr<" ++ s') = Some (rest, cs) →
  ∃ b', rest = b' ++ "std::unique_ptr<" ++ s'.
Proof.
  intros Hbefore Hindent Hsplit Hb Hm.
  apply declared_pattern_shape in Hm
    as (T & sp & x & dots & Hs & HT & Hsp & Hx & Hdots & _).
  set (A := "std::unique_ptr<" ++ T ++ [">"%char]).
  set (B := x ++ "("%char :: dots ++ [")"%char]).
  assert (b ++ "std::unique_ptr<" ++ s' = (A ++ sp ++ B) ++ rest) as HM.
  { rewrite Hs. unfold A, B. rewrite <- !app_assoc. simpl. by rewrite <- !app_assoc. }
  assert (Forall (λ c, Char.not_newline c = true) A) as HA.
  { unfold A. apply Forall_app. split; [by repeat constructor|].
    apply Forall_app. split; [|by repeat constructor].
    destruct HT as [_ HT]. eapply Forall_impl; [done|]. apply word_not_newline. }
  assert (Forall (λ c, Char.not_newline c = true) B) as HB.
  { unfold B. apply Forall_app. split.
    - destruct Hx as [_ Hx]. eapply Forall_impl; [done|]. apply method_char_not_newline.
    - constructor; [done|]. apply Forall_app. split; [done|by repeat constructor]. }
  assert (starts_in Char.is_space B = false) as HBs.
  { unfold B. destruct Hx as [Hne Hx]. destruct x as [|x0 x]; [done|].
    apply Forall_cons in Hx as [Hx0 _]. by apply method_char_not_space. }
  clear Hs. apply app_eq_app in HM as [l [[-> ->]|[HM Hl]]]; [by exists l|].
  destruct l as [|l0 l]; [exists []; symmetry; exact Hl|]. exfalso.
  injection Hl as Hl0 Hl. subst l0.
  (* the match starts with [s], so not inside the indentation *)
  assert (∀ l2, indent = l2 ++ b → False) as Hin.
  { intros l2 ->. apply Forall_app in Hindent as [_ Hindent].
    destruct b as [|b1 b]; [done|]. apply Forall_cons in Hindent as [H1 _].
    unfold A in HM. injection HM as <- _. done. }
  apply app_eq_app in Hsplit as [l2 [[-> Hb2]|[_ Hi]]]; [|by eapply Hin].
  destruct l2 as [|c2 l2]; [by apply (Hin []); rewrite Hb2|].
  destruct (ends_line _ a (c2 :: l2) Hbefore eq_refl ltac:(done)) as [l3 Hl3].
  rewrite Hl3 in Hb2. subst b. clear Hb Hin.
  (* the newline lies in the white space of the match *)
  assert (∃ sp2, spaces sp2 ∧ indent ++ "s"%char :: l = sp2 ++ B) as (sp2 & Hsp2 & HZ).
  { rewrite <- !app_assoc in HM. simpl in HM.
    change (A ++ sp ++ B = l3 ++ "010"%char :: (indent ++ "s"%char :: l)) in HM.
    destruct Hsp as [Hsp0 Hsp].
    apply app_eq_app in HM as [l4 [[HA4 H4]|[-> H4]]].
    - destruct l4 as [|c4 l4].
      + simpl in H4. destruct sp as [|c3 w2]; [done|]. injection H4 as <- H4.
        exists w2. split; [|done]. by apply Forall_cons in Hsp as [_ Hsp].
      + exfalso. injection H4 as <- H4. apply (no_newline_in _ HA).
        rewrite HA4. apply elem_of_app. right. by left.
    - apply app_eq_app in H4 as [l5 [[Hsp5 H5]|[-> HB5]]].
      + destruct l5 as [|c5 l5].
        * exfalso. apply (no_newline_in B HB). simpl in H5. rewrite <- H5. by left.
        * injection H5 as <- H5. exists l5. split; [|done].
          rewrite Hsp5 in Hsp. apply Forall_app in Hsp as [_ Hsp].
          by apply Forall_cons in Hsp as [_ Hsp].
      + exfalso. apply (no_newline_in B HB). rewrite HB5.
        apply elem_of_app. right. by left. }
  apply spaces_split in HZ; [|done|done|done|done].
  apply (name_is_not_the_marker x (dots ++ ")"%char :: rest) s' Hx).
  assert ("std::unique_ptr<" ++ s' = ("s"%char :: l) ++ rest) as ->
    by (simpl; by f_equal).
  rewrite HZ. unfold B. rewrite <- !app_assoc. simpl. by rewrite <- !app_assoc.
Qed.

(** Property X11.  A declaration that stands on a line of its own, after
    white space only, with a return type [std::unique_ptr<T>], white space,
    a name of lower-case letters and underscores and a parameter list that
    is closed on the same line, is found by [analyze_cpp_files], whatever
    the header holds before and after it. *)
Theorem declaration_on_its_own_line_is_found
    (before indent T sp name args post : str) :
  line_start before → spaces indent →
  name_in Char.is_word T → name_in Char.is_space sp →
  name_in lower_or_underscore name →
  Forall (λ c, Char.not_newline c = true) args →
  name ∈ declared_methods_of
           (before ++ indent ++ "std::unique_ptr<" ++ T ++ ">" ++ sp ++ name
            ++ "(" ++ args ++ ")" ++ post).
Proof.
  intros Hbefore Hindent HT Hsp Hname Hargs.
  unfold declared_methods_of. rewrite elem_of_list_to_set.
  rewrite (app_assoc before indent).
  apply scan_reaches.
  - simpl. lia.
  - intros a b prev rest cs Hsplit Hb Hm.
    by eapply (declared_no_straddle before indent).
  - intros prev.
    destruct (declared_match prev T sp name args post HT Hsp Hname Hargs) as [rest Hm].
    by exists rest, [(1, name)].
Qed.

(** X11 for a declaration inside a class. *)
Lemma declaration_on_its_own_line_is_found_witness :
  ("block" : str) ∈ declared_methods_of
    ("class Parser {" ++ nl ++ "    std::unique_ptr<Block> block();" ++ nl ++ "};").
Proof.
  apply (declaration_on_its_own_line_is_found ("class Parser {" ++ nl) "    "
           "Block" " " "block" "" (";" ++ nl ++ "};")).
  - reflexivity.
  - by repeat constructor.
  - split; [done|by repeat constructor].
  - split; [done|by repeat constructor].
  - split; [done|by repeat constructor].
  - constructor.
Defined.

(** *** No earlier match runs into a definition *)

Lemma free_of_without (c : ascii) t line : c ∈ t → c ∉ line → free_of t line.
Proof.
  intros Hc Hline u v ->. apply Hline.
  apply elem_of_app. right. apply elem_of_app. by left.
Qed.

Lemma marker_does_not_overlap b l Y :
  b ≠ [] → "Parser::" ++ Y = b ++ "P"%char :: l → ∃ b', b = "Parser::" ++ b'.
Proof.
  intros Hb H.
  destruct b as [|b1 b]; [done|]. injection H as <- H.
  destruct b as [|b2 b]; [discriminate H|]. injection H as <- H.
  destruct b as [|b3 b]; [discriminate H|]. injection H as <- H.
  destruct b as [|b4 b]; [discriminate H|]. injection H as <- H.
  destruct b as [|b5 b]; [discriminate H|]. injection H as <- H.
  destruct b as [|b6 b]; [discriminate H|]. injection H as <- H.
  destruct b as [|b7 b]; [discriminate H|]. injection H as <- H.
  destruct b as [|b8 b]; [discriminate H|]. injection H as <- H.
  by exists b.
Qed.

Lemma implemented_no_straddle before line s' a b prev rest cs :
  line_start before → Forall (λ c, Char.not_newline c = true) line →
  free_of "Parser::" line →
  before ++ line = a ++ b → b ≠ [] →
  Re.match_at Pat.implemented_pattern prev (b ++ "Parser::" ++ s') = Some (rest, cs) →
  ∃ b', rest = b' ++ "Parser::" ++ s'.
Proof.
  intros Hbefore Hline Hfree Hsplit Hb Hm.
  apply implemented_pattern_shape in Hm as (x & dots & Hs & Hx & Hdots & _).
  set (M := "Parser::" ++ x ++ "("%char :: dots ++ [")"%char]).
  assert (b ++ "Parser::" ++ s' = M ++ rest) as HM.
  { rewrite Hs. unfold M. rewrite <- !app_assoc. simpl. by rewrite <- !app_assoc. }
  assert (Forall (λ c, Char.not_newline c = true) M) as HMn.
  { unfold M. apply Forall_app. split; [by repeat constructor|].
    apply Forall_app. split.
    - destruct Hx as [_ Hx]. eapply Forall_impl; [done|]. apply method_char_not_newline.
    - constructor; [done|]. apply Forall_app. split; [done|by repeat constructor]. }
  clear Hs. apply app_eq_app in HM as [l [[-> ->]|[HM Hl]]]; [by exists l|].
  destruct l as [|l0 l]; [exists []; symmetry; exact Hl|]. exfalso.
  injection Hl as Hl0 Hl. subst l0.
  apply app_eq_app in Hsplit as [l2 [[-> Hb2]|[_ Hi]]].
  - destruct l2 as [|c2 l2].
    + simpl in Hb2. subst b.
      destruct (marker_does_not_overlap _ _ _ Hb HM) as [b' ->].
      by apply (Hfree [] b').
    + destruct (ends_line _ a (c2 :: l2) Hbefore eq_refl ltac:(done)) as [l3 Hl3].
      apply (no_newline_in M HMn). rewrite HM, Hb2, Hl3.
      apply elem_of_app. left. apply elem_of_app. left. apply elem_of_app. right. by left.
  - destruct (marker_does_not_overlap _ _ _ Hb HM) as [b' ->].
    by apply (Hfree l2 b').
Qed.

(** Property X12.  A definition [Parser::name(args)] with a name of
    lower-case letters and underscores and a parameter list closed on the
    same line is found by [analyze_cpp_files] when the text before it on
    its line holds no other [Parser::], whatever the source holds on the
    lines before and after it. *)
Theorem definition_is_found (before line name args post : str) :
  line_start before → Forall (λ c, Char.not_newline c = true) line →
  free_of "Parser::" line →
  name_in lower_or_underscore name →
  Forall (λ c, Char.not_newline c = true) args →
  name ∈ implemented_methods_of
           (before ++ line ++ "Parser::" ++ name ++ "(" ++ args ++ ")" ++ post).
Proof.
  intros Hbefore Hline Hfree Hname Hargs.
  unfold implemented_methods_of. rewrite elem_of_list_to_set.
  rewrite (app_assoc before line).
  apply scan_reaches.
  - simpl. lia.
  - intros a b prev rest cs Hsplit Hb Hm.
    by eapply (implemented_no_straddle before line).
  - intros prev.
    destruct (implemented_match prev name args post Hname Hargs) as [rest Hm].
    by exists rest, [(1, name)].
Qed.

(** X12 for a definition after its return type. *)
Lemma definition_is_found_witness :
  ("block" : str) ∈ implemented_methods_of
    ("#include <Parser.h>" ++ nl ++ "std::unique_ptr<Block> Parser::block() {").
Proof.
  apply (definition_is_found ("#include <Parser.h>" ++ nl) "std::unique_ptr<Block> "
           "block" "" " {").
  - reflexivity.
  - by repeat constructor.
  - apply (free_of_without "P"%char).
    + by left.
    + apply (bool_decide_unpack _). by vm_compute.
  - split; [done|by repeat constructor].
  - constructor.
Defined.

(** ** The stubs of the report *)

Lemma stdout_text_app a b : stdout_text (a ++ b) = stdout_text a ++ stdout_text b.
Proof. unfold stdout_text. apply flat_map_app. Qed.

Lemma stdout_text_stubs l :
  stdout_text (l ≫= implementation_stub) = l ≫= implementation_block.
Proof.
  induction l as [|r l IH]; [done|].
  change ((r :: l) ≫= implementation_stub) with (implementation_stub r ++ (l ≫= implementation_stub)).
  change ((r :: l) ≫= implementation_block) with (implementation_block r ++ (l ≫= implementation_block)).
  rewrite stdout_text_app, IH. f_equal.
  unfold implementation_stub, implementation_block, stdout_text.
  cbn [flat_map]. rewrite app_nil_r. by rewrite <- !app_assoc.
Qed.

(** Property X13.  When an implementation is missing, the output ends with
    the header of the implementations and, for each missing rule in sorted
    order, four lines: the signature with the node type and the rule name,
    a TODO comment naming the rule, [return nullptr;] and the closing brace,
    followed by an empty line. *)
Theorem implementation_stub_blocks (R D I : gset str) :
  R ∖ I ≠ ∅ →
  stdout_text (report R D I) =
    stdout_text (report_preamble ++ declarations_section (elements (R ∖ D)))
    ++ "---Missing Method Implementations (for src/Parser.cpp)---" ++ nl
    ++ (sorted (elements (R ∖ I)) ≫= implementation_block).
Proof.
  intros HI. unfold report, analyze, report_of_listings, implementations_section.
  rewrite <- elements_nil_iff in HI.
  destruct (decide (_ ∧ _)) as [[_ ?]|_]; [done|].
  destruct (decide (elements (R ∖ I) = [])); [done|].
  rewrite app_assoc, stdout_text_app. f_equal.
  rewrite stdout_text_app, stdout_text_stubs. f_equal.
Qed.

(** X13 for the one missing implementation [block]. *)
Lemma implementation_stub_blocks_witness :
  ({[ "block" : str ]} : gset str) ∖ ∅ ≠ ∅
  ∧ stdout_text (report {[ "block" : str ]} {[ "block" : str ]} ∅) =
      stdout_text report_preamble
      ++ "---Missing Method Implementations (for src/Parser.cpp)---" ++ nl
      ++ "std::unique_ptr<Block> Parser::block() {" ++ nl
      ++ "    // TODO: Implement parsing logic for block" ++ nl
      ++ "    return nullptr;" ++ nl
      ++ "}" ++ nl ++ nl.
Proof.
  assert (({[ "block" : str ]} : gset str) ∖ ∅ ≠ ∅) as Hne.
  { intros H. apply (f_equal elements) in H. vm_compute in H. discriminate H. }
  split; [done|].
  rewrite (implementation_stub_blocks {[ "block" : str ]} {[ "block" : str ]} ∅ Hne).
  by vm_compute.
Defined.

(** *** A stub stands in the report exactly for a missing method *)

Lemma split_at_first (x : ascii) a a' b b' :
  x ∉ a → x ∉ a' → a ++ x :: b = a' ++ x :: b' → a = a' ∧ b = b'.
Proof.
  revert a'. induction a as [|c a IH]; intros [|c' a'] Ha Ha'; simpl.
  - by intros [= ->].
  - intros [= <- _]. exfalso. apply Ha'. by left.
  - intros [= -> _]. exfalso. apply Ha. by left.
  - intros [= -> H]. apply IH in H as [-> ->]; [done| |].
    + intros Hin. apply Ha. by right.
    + intros Hin. apply Ha'. by right.
Qed.

Lemma letter_not_closer c : is_letter c = true → c ≠ ">"%char.
Proof. each_char c. Qed.

Lemma node_type_no_closer r : method_name r → ">"%char ∉ node_type r.
Proof.
  intros Hr. destruct (node_type_method_name r Hr) as [(C & T & -> & HC & HT) _].
  intros [E|Hin]%elem_of_cons; [by subst C|].
  rewrite Forall_forall in HT. by apply HT, letter_not_closer in Hin.
Qed.

Lemma declaration_stub_inj r r' :
  method_name r → method_name r' →
  declaration_stub r = declaration_stub r' → r = r'.
Proof.
  intros Hr Hr' H. unfold declaration_stub in H. apply app_inv_head in H.
  change (node_type r ++ ">"%char :: (" " ++ r ++ "();")
          = node_type r' ++ ">"%char :: (" " ++ r' ++ "();")) in H.
  apply split_at_first in H as [_ H]; try by apply node_type_no_closer.
  apply app_inv_head in H. by apply app_inv_tail in H.
Qed.

Lemma implementation_head_inj r r' :
  method_name r → method_name r' →
  implementation_head r = implementation_head r' → r = r'.
Proof.
  intros Hr Hr' H. unfold implementation_head in H. apply app_inv_head in H.
  change (node_type r ++ ">"%char :: (" Parser::" ++ r ++ "() {")
          = node_type r' ++ ">"%char :: (" Parser::" ++ r' ++ "() {")) in H.
  apply split_at_first in H as [_ H]; try by apply node_type_no_closer.
  apply app_inv_head in H. by apply app_inv_tail in H.
Qed.

(** lines told apart by their first five characters *)
Ltac other_line :=
  let E := fresh in
  intros E; apply (f_equal (take 5)) in E; vm_compute in E; discriminate E.

Lemma elem_of_sorted_elements (X : gset str) x : x ∈ sorted (elements X) ↔ x ∈ X.
Proof. by rewrite sorted_perm, elem_of_elements. Qed.

Lemma stub_in_implementation_stub r r' :
  declaration_stub r ∉ implementation_stub r'.
Proof.
  unfold implementation_stub. rewrite !elem_of_cons, elem_of_nil.
  intros [H|[H|[H|[H|[]]]]]; revert H; other_line.
Qed.

Lemma head_in_implementation_stub r r' :
  implementation_head r ∈ implementation_stub r' ↔ implementation_head r = implementation_head r'.
Proof.
  unfold implementation_stub. rewrite !elem_of_cons, elem_of_nil. split.
  - intros [H|[H|[H|[H|[]]]]]; [done|..]; revert H; other_line.
  - intros H. by left.
Qed.

Lemma declaration_stub_in_report (R D I : gset str) r :
  set_Forall method_name R → method_name r →
  declaration_stub r ∈ report R D I ↔ r ∈ R ∧ r ∉ D.
Proof.
  intros HR Hr. rewrite <- elem_of_difference.
  unfold report, analyze, report_of_listings.
  destruct (decide (_ ∧ _)) as [[H1 H2]|Hn].
  - apply elements_nil_iff in H1. rewrite H1. split.
    + intros H%list_elem_of_singleton. revert H. other_line.
    + by intros ?%not_elem_of_empty.
  - rewrite !elem_of_app. split.
    + intros [H|[H|H]].
      * exfalso. revert H. rewrite !elem_of_cons, elem_of_nil.
        intros [H|[H|[H|[]]]]; revert H; other_line.
      * unfold declarations_section in H.
        destruct (decide (elements (R ∖ D) = [])); [by apply elem_of_nil in H|].
        rewrite !elem_of_app in H. destruct H as [H|[H|H]].
        -- exfalso. apply list_elem_of_singleton in H. revert H. other_line.
        -- apply list_elem_of_fmap in H as (r' & E & H).
           apply elem_of_sorted_elements in H.
           apply declaration_stub_inj in E as ->; [done|done|].
           apply HR. by apply elem_of_difference in H as [H _].
        -- exfalso. apply list_elem_of_singleton in H. revert H. other_line.
      * exfalso. unfold implementations_section in H.
        destruct (decide (elements (R ∖ I) = [])); [by apply elem_of_nil in H|].
        rewrite elem_of_app in H. destruct H as [H|H].
        -- apply list_elem_of_singleton in H. revert H. other_line.
        -- apply list_elem_of_bind in H as (r' & H & _).
           by apply stub_in_implementation_stub in H.
    + intros H. right. left. unfold declarations_section.
      destruct (decide (elements (R ∖ D) = [])) as [E|_].
      * apply elements_nil_iff in E. rewrite E in H. by apply not_elem_of_empty in H.
      * rewrite !elem_of_app. right. left. apply list_elem_of_fmap.
        exists r. split; [done|]. by apply elem_of_sorted_elements.
Qed.

Lemma implementation_head_in_report (R D I : gset str) r :
  set_Forall method_name R → method_name r →
  implementation_head r ∈ report R D I ↔ r ∈ R ∧ r ∉ I.
Proof.
  intros HR Hr. rewrite <- elem_of_difference.
  unfold report, analyze, report_of_listings.
  destruct (decide (_ ∧ _)) as [[H1 H2]|Hn].
  - apply elements_nil_iff in H2. rewrite H2. split.
    + intros H%list_elem_of_singleton. revert H. other_line.
    + by intros ?%not_elem_of_empty.
  - rewrite !elem_of_app. split.
    + intros [H|[H|H]].
      * exfalso. revert H. rewrite !elem_of_cons, elem_of_nil.
        intros [H|[H|[H|[]]]]; revert H; other_line.
      * exfalso. unfold declarations_section in H.
        destruct (decide (elements (R ∖ D) = [])); [by apply elem_of_nil in H|].
        rewrite !elem_of_app in H. destruct H as [H|[H|H]].
        -- apply list_elem_of_singleton in H. revert H. other_line.
        -- apply list_elem_of_fmap in H as (r' & E & H). revert E. other_line.
        -- apply list_elem_of_singleton in H. revert H. other_line.
      * unfold implementations_section in H.
        destruct (decide (elements (R ∖ I) = [])); [by apply elem_of_nil in H|].
        rewrite elem_of_app in H. destruct H as [H|H].
        -- exfalso. apply list_elem_of_singleton in H. revert H. other_line.
        -- apply list_elem_of_bind in H as (r' & H & Hin).
           apply elem_of_sorted_elements in Hin.
           apply head_in_implementation_stub in H.
           apply implementation_head_inj in H as ->; [done|done|].
           apply HR. by apply elem_of_difference in Hin as [Hin _].
    + intros H. right. right. unfold implementations_section.
      destruct (decide (elements (R ∖ I) = [])) as [E|_].
      * apply elements_nil_iff in E. rewrite E in H. by apply not_elem_of_empty in H.
      * rewrite !elem_of_app. right. apply list_elem_of_bind.
        exists r. split; [by left|]. by apply elem_of_sorted_elements.
Qed.

(** Property X14.  When the three files can be read, [main] prints the
    declaration stub of a method name exactly when the name is a rule of the
    grammar that the header does not declare, and the first line of its
    implementation stub exactly when it is a rule the source does not
    implement. *)
Theorem stubs_exactly_for_missing_methods
    (script_dir : str) (read : str → option str) (g h c : str) :
  read (path_join script_dir "grammar/Zephyr.g4") = Some g →
  read (path_join script_dir "include/Parser.h") = Some h →
  read (path_join script_dir "src/Parser.cpp") = Some c →
  ∃ printed, main script_dir read = Returned printed
  ∧ ∀ r, method_name r →
      (declaration_stub r ∈ printed
       ↔ r ∈ (parse_grammar g).2 ∧ r ∉ declared_methods_of h)
      ∧ (implementation_head r ∈ printed
         ↔ r ∈ (parse_grammar g).2 ∧ r ∉ implemented_methods_of c).
Proof.
  intros Hg Hh Hc. eexists. split; [by apply main_reads_all|].
  intros r Hr. split.
  - apply declaration_stub_in_report; [apply rules_method_names|done].
  - apply implementation_head_in_report; [apply rules_method_names|done].
Qed.

(** X14 at the files of the scenario: [block] is a rule and not declared. *)
Lemma stubs_exactly_for_missing_methods_witness :
  ∃ printed, main "/zephyr" scenario_files = Returned printed
             ∧ declaration_stub "block" ∈ printed.
Proof.
  destruct (stubs_exactly_for_missing_methods "/zephyr" scenario_files
              scenario_grammar scenario_header scenario_source
              eq_refl eq_refl eq_refl) as (printed & Hm & H).
  exists printed. split; [exact Hm|].
  apply (H "block").
  - exists "b"%char, "lock". split; [done|]. split; [reflexivity|by repeat constructor].
  - split.
    + apply (bool_decide_unpack _). by vm_compute.
    + apply (bool_decide_unpack _). by vm_compute.
Defined.

(** ** The outcomes of [main] *)

Lemma report_in_sync_iff (R D I : gset str) :
  report R D I = [in_sync_message] ↔ R ⊆ D ∧ R ⊆ I.
Proof.
  unfold report, analyze, report_of_listings.
  destruct (decide (elements (R ∖ D) = [] ∧ elements (R ∖ I) = [])) as [[H1 H2]|Hn].
  - split; [intros _|done].
    apply elements_nil_iff in H1, H2.
    split; apply elem_of_subseteq; intros x Hx.
    + destruct (decide (x ∈ D)) as [|Hd]; [done|].
      assert (x ∈ R ∖ D) as Hin by (by apply elem_of_difference).
      rewrite H1 in Hin. by apply not_elem_of_empty in Hin.
    + destruct (decide (x ∈ I)) as [|Hd]; [done|].
      assert (x ∈ R ∖ I) as Hin by (by apply elem_of_difference).
      rewrite H2 in Hin. by apply not_elem_of_empty in Hin.
  - split.
    + intros H. apply (f_equal (λ l, head l)) in H. simpl in H.
      injection H as H. by vm_compute in H.
    + intros [HD HI]. exfalso. apply Hn.
      rewrite (subseteq_empty_difference_L R D HD), (subseteq_empty_difference_L R I HI).
      by rewrite elements_empty.
Qed.

(** Property X15.  When the three files can be read, [main] prints the
    in-sync message, and nothing else, exactly when every rule of the
    grammar is both declared in the header and implemented in the source. *)
Theorem in_sync_only_when_nothing_is_missing
    (script_dir : str) (read : str → option str) (g h c : str) :
  read (grammar_path script_dir) = Some g →
  read (header_path script_dir) = Some h →
  read (source_path script_dir) = Some c →
  (main script_dir read = Returned [in_sync_message]
   ↔ (parse_grammar g).2 ⊆ declared_methods_of h
     ∧ (parse_grammar g).2 ⊆ implemented_methods_of c).
Proof.
  intros Hg Hh Hc. rewrite (main_reads_all _ _ _ _ _ Hg Hh Hc).
  destruct (report_in_sync_iff (parse_grammar g).2 (declared_methods_of h)
              (implemented_methods_of c)) as [H1 H2].
  split.
  - intros [= H]. by apply H1.
  - intros H. f_equal. by apply H2.
Qed.

(** X15 for a grammar with one rule, declared and defined. *)
Lemma in_sync_only_when_nothing_is_missing_witness :
  main "/zephyr" synced_files = Returned [in_sync_message].
Proof.
  apply (in_sync_only_when_nothing_is_missing "/zephyr" synced_files
           ("block: '{' '}' ;" ++ nl)
           ("    std::unique_ptr<Block> block();" ++ nl)
           ("std::unique_ptr<Block> Parser::block() {" ++ nl)).
  - reflexivity.
  - reflexivity.
  - reflexivity.
  - split; apply (bool_decide_unpack _); by vm_compute.
Defined.

(** Property X16.  Where every [open] either succeeds or raises
    [FileNotFoundError]: a grammar file that is not found is reported,
    [main] prints the error message with the path and returns; a header or
    source file that is not found is not, [FileNotFoundError] leaves [main],
    for the header when the grammar is read and the header is not found, for
    the source when grammar and header are read and the source is not found,
    and in no other case. *)
Theorem main_outcomes (script_dir : str) (read : str → option str) :
  (read (grammar_path script_dir) = None →
   main script_dir read
   = Returned [ "Error: " ++ grammar_path script_dir ++ " not found." ])
  ∧ (∀ path, main script_dir read = FileNotFound path ↔
       is_Some (read (grammar_path script_dir))
       ∧ ((read (header_path script_dir) = None ∧ path = header_path script_dir)
          ∨ (is_Some (read (header_path script_dir))
             ∧ read (source_path script_dir) = None
             ∧ path = source_path script_dir))).
Proof.
  unfold main, analyze_cpp_files, grammar_path, header_path, source_path.
  split.
  - by intros ->.
  - intros path.
    destruct (read (path_join script_dir "grammar/Zephyr.g4")) as [g|].
    + destruct (parse_grammar g) as [tokens rules].
      destruct (read (path_join script_dir "include/Parser.h")) as [h|].
      * destruct (read (path_join script_dir "src/Parser.cpp")) as [c|].
        -- split; [done|]. intros [_ [[? _]|(_ & ? & _)]]; done.
        -- split.
           ++ intros [= <-]. split; [done|]. right. done.
           ++ intros [_ [[? _]|(_ & _ & ->)]]; done.
      * split.
        -- intros [= <-]. split; [done|]. by left.
        -- intros [_ [[_ ->]|([? ?] & _)]]; done.
    + split; [done|]. intros [[? ?] _]. done.
Qed.

(** X16 in an empty directory and in a directory with the grammar alone. *)
Lemma main_outcomes_witness :
  main "/zephyr" no_files
  = Returned [ "Error: /zephyr/grammar/Zephyr.g4 not found." : str ]
  ∧ main "/zephyr" grammar_only_files = FileNotFound "/zephyr/include/Parser.h".
Proof.
  split.
  - apply (proj1 (main_outcomes "/zephyr" no_files)). reflexivity.
  - apply (proj2 (main_outcomes "/zephyr" grammar_only_files)).
    split; [by eexists|]. left. split; reflexivity.
Defined.
